(** * Cloud Resource Tag Auditor: model of [auditor.go] and of the CLI driver

    The development embeds the auditor in Gallina and checks the
    properties the specification states about it.

    - Go strings are byte strings: [string].
    - A Go [error] is modelled by its message; [fmt.Errorf("...: %w", err)]
      is the concatenation of the prefix and the wrapped message.
    - The AWS clients are external: an [Auditor] is the table of the answers
      its four clients give, so every SDK call is taken to return.  Pointers
      returned by the SDK ([*tag.Key], [*instance.InstanceId], ...) are
      taken to be non-nil.
    - Goroutines and unbuffered channels are modelled by an interleaving
      step relation ([step]): a producer is the sequence of API calls and
      channel sends it still has to perform, and a send happens only as a
      rendezvous with the collecting [select] loop. *)

From stdpp Require Import gmap strings list fin_maps relations sorting.

Set Warnings "-register-all".

(** ** Go values *)

Definition error := string.

(** A call of the Go SDK returns [(value, err)]. *)
Inductive result (T : Type) :=
| Ok (v : T)
| Err (e : error).
Arguments Ok {T} v.
Arguments Err {T} e.

(** A slice is [nil] or has a backing array; [len], [range] and [append]
    do not tell the two apart, [encoding/json] does. *)
Inductive slice (A : Type) :=
| SliceNil
| Slice (l : list A).
Arguments SliceNil {A}.
Arguments Slice {A} l.

Definition elems {A} (s : slice A) : list A :=
  match s with
  | SliceNil => []
  | Slice l => l
  end.

(** [make([]T, 0)] *)
Definition make_slice {A} : slice A := Slice [].

(** [append(s, x)]: the result always has a backing array. *)
Definition append {A} (s : slice A) (x : A) : slice A := Slice (elems s ++ [x]).

(** A [map[string]string] held in a struct field is [nil] or allocated. *)
Inductive gomap :=
| MapNil
| Map (m : gmap string string).

Definition entries (m : gomap) : gmap string string :=
  match m with
  | MapNil => ∅
  | Map g => g
  end.

Definition nl : string := String (Ascii.ascii_of_nat 10) EmptyString.
Definition cr : string := String (Ascii.ascii_of_nat 13) EmptyString.
Definition dquote : string := String (Ascii.ascii_of_nat 34) EmptyString.

(** [strings.ToLower].  The model works byte by byte and is exact on ASCII
    input.  On other input Go rewrites whole runes, but the only runes it
    maps to an ASCII letter are U+212A (to k) and U+0130 (to i), and neither
    letter occurs in a service name: the [switch] of [AuditResources]
    selects the same case in Go and in the model. *)
Definition toLowerByte (c : Ascii.ascii) : Ascii.ascii :=
  let n := Ascii.nat_of_ascii c in
  if (65 <=? n)%nat && (n <=? 90)%nat then Ascii.ascii_of_nat (n + 32) else c.

Fixpoint ToLower (s : string) : string :=
  match s with
  | EmptyString => EmptyString
  | String c s' => String (toLowerByte c) (ToLower s')
  end.

(** ** Data model *)

Record ResourceInfo := {
  ServiceName : string;
  ResourceID : string;
  ResourceType : string;
  Tags : gomap;
  MissingTags : slice string
}.

Record AuditReport := { Resources : slice ResourceInfo }.

(** ** The AWS clients *)

Module ec2.
Record Tag := { Key : string; Value : string }.
Record Instance := { InstanceId : string; Tags : list Tag }.
Record Reservation := { Instances : list Instance }.
End ec2.

Module s3.
Record Tag := { Key : string; Value : string }.
Record Bucket := { Name : string }.
End s3.

Module rds.
Record Tag := { Key : string; Value : string }.
Record DBInstance := { DBInstanceIdentifier : string; TagList : list Tag }.
End rds.

Module lambda.
Record FunctionConfiguration := { FunctionArn : string; FunctionName : string }.
End lambda.

(** The requests the providers send. *)
Inductive api :=
| DescribeInstances
| ListBuckets
| GetBucketTagging (bucket : string)
| DescribeDBInstances
| ListFunctions
| ListTags (arn : string).

(** The four clients, each as the answers it gives during one audit. *)
Record Auditor := {
  ec2Client : result (list ec2.Reservation);
  s3Client : result (list s3.Bucket) * (string → result (list s3.Tag));
  rdsClient : result (list rds.DBInstance);
  lambdaClient : result (list lambda.FunctionConfiguration)
                 * (string → result (gmap string string))
}.

(** ** Providers *)

(** What a producer goroutine does, in program order: it calls the cloud,
    sends on [resourceChan], sends on [errorChan]. *)
Inductive action :=
| Call (c : api)
| SendResource (r : ResourceInfo)
| SendError (e : error).

(** [tags[*tag.Key] = *tag.Value] over the tag list of a resource, starting
    from [make(map[string]string)]. *)
Definition collectTags {T} (key value : T → string) (l : list T) : gmap string string :=
  fold_left (λ tags tag, <[key tag := value tag]> tags) l ∅.

(** The loop every provider runs over [requiredTags], starting from
    [make([]string, 0)]:
<<
    for _, required := range requiredTags {
        if _, exists := tags[required]; !exists {
            missingTags = append(missingTags, required)
        }
    }
>> *)
Definition missingTags (tags : gmap string string) (requiredTags : list string) : slice string :=
  fold_left
    (λ missing required,
       match tags !! required with
       | Some _ => missing
       | None => append missing required
       end)
    requiredTags make_slice.

Definition auditEC2 (a : Auditor) (requiredTags : list string) : list action :=
  Call DescribeInstances ::
  match ec2Client a with
  | Err err => [SendError ("failed to describe EC2 instances: " +:+ err)]
  | Ok reservations =>
      reservation ← reservations;
      instance ← ec2.Instances reservation;
      let tags := collectTags ec2.Key ec2.Value (ec2.Tags instance) in
      [SendResource {| ServiceName := "EC2";
                       ResourceID := ec2.InstanceId instance;
                       ResourceType := "Instance";
                       Tags := Map tags;
                       MissingTags := missingTags tags requiredTags |}]
  end.

Definition auditS3 (a : Auditor) (requiredTags : list string) : list action :=
  Call ListBuckets ::
  match (s3Client a).1 with
  | Err err => [SendError ("failed to list S3 buckets: " +:+ err)]
  | Ok buckets =>
      bucket ← buckets;
      let tags :=
        match (s3Client a).2 (s3.Name bucket) with
        | Ok tagSet => collectTags s3.Key s3.Value tagSet
        | Err _ => ∅
        end in
      [Call (GetBucketTagging (s3.Name bucket));
       SendResource {| ServiceName := "S3";
                       ResourceID := s3.Name bucket;
                       ResourceType := "Bucket";
                       Tags := Map tags;
                       MissingTags := missingTags tags requiredTags |}]
  end.

Definition auditRDS (a : Auditor) (requiredTags : list string) : list action :=
  Call DescribeDBInstances ::
  match rdsClient a with
  | Err err => [SendError ("failed to describe RDS instances: " +:+ err)]
  | Ok instances =>
      instance ← instances;
      let tags := collectTags rds.Key rds.Value (rds.TagList instance) in
      [SendResource {| ServiceName := "RDS";
                       ResourceID := rds.DBInstanceIdentifier instance;
                       ResourceType := "DBInstance";
                       Tags := Map tags;
                       MissingTags := missingTags tags requiredTags |}]
  end.

(** [for key, value := range tagsOutput.Tags { tags[key] = value }]: the
    copy visits the entries in an order Go does not fix; [copyTags] uses
    the order of [map_to_list], and [copyTags_any_order] shows that the
    order does not matter. *)
Definition copyTags (visit : list (string * string)) : gmap string string :=
  fold_left (λ tags kv, <[kv.1 := kv.2]> tags) visit ∅.

Definition auditLambda (a : Auditor) (requiredTags : list string) : list action :=
  Call ListFunctions ::
  match (lambdaClient a).1 with
  | Err err => [SendError ("failed to list Lambda functions: " +:+ err)]
  | Ok functions =>
      function ← functions;
      Call (ListTags (lambda.FunctionArn function)) ::
      match (lambdaClient a).2 (lambda.FunctionArn function) with
      | Err err =>
          [SendError ("failed to get tags for Lambda function "
                      +:+ lambda.FunctionName function +:+ ": " +:+ err)]
      | Ok tagsOutput =>
          let tags := copyTags (map_to_list tagsOutput) in
          [SendResource {| ServiceName := "Lambda";
                           ResourceID := lambda.FunctionName function;
                           ResourceType := "Function";
                           Tags := Map tags;
                           MissingTags := missingTags tags requiredTags |}]
      end
  end.

(** ** The coordinator *)

(** The body of the goroutine launched for one requested service. *)
Definition producer (a : Auditor) (requiredTags : list string) (svc : string) : list action :=
  let s := ToLower svc in
  if decide (s = "ec2") then auditEC2 a requiredTags
  else if decide (s = "s3") then auditS3 a requiredTags
  else if decide (s = "rds") then auditRDS a requiredTags
  else if decide (s = "lambda") then auditLambda a requiredTags
  else [].

(** A state of [AuditResources].  While the [select] loop runs, each
    launched goroutine is the list of actions it has not performed yet,
    [report] is what has been appended so far and [calls] the requests that
    reached the cloud.  After [return], [producers] holds the goroutines
    as the call left them. *)
Inductive coordinator :=
| Collecting (producers : list (list action)) (report : AuditReport) (calls : list api)
| Returned (res : result AuditReport) (producers : list (list action)) (calls : list api).

(** One step of the system.  Both channels are unbuffered, so a send is a
    rendezvous with the matching [case] of the [select]; [done] is offered
    only after [wg.Wait()], that is when every producer has run to its end. *)
Inductive step : coordinator → coordinator → Prop :=
| step_call ps report calls i c rest :
    ps !! i = Some (Call c :: rest) →
    step (Collecting ps report calls)
         (Collecting (<[i := rest]> ps) report (calls ++ [c]))
| step_resource ps report calls i r rest :
    ps !! i = Some (SendResource r :: rest) →
    step (Collecting ps report calls)
         (Collecting (<[i := rest]> ps)
                     {| Resources := append (Resources report) r |} calls)
| step_error ps report calls i err rest :
    ps !! i = Some (SendError err :: rest) →
    step (Collecting ps report calls)
         (Returned (Err err) (<[i := rest]> ps) calls)
| step_done ps report calls :
    Forall (λ p, p = []) ps →
    step (Collecting ps report calls) (Returned (Ok report) ps calls).

(** [report := &AuditReport{}], one goroutine per requested service. *)
Definition AuditResources (a : Auditor) (services requiredTags : list string) : coordinator :=
  Collecting (producer a requiredTags <$> services) {| Resources := SliceNil |} [].

(** The goroutines the call has started ([wg.Add(1); go func ...]). *)
Definition launched (s : coordinator) : list (list action) :=
  match s with
  | Collecting ps _ _ | Returned _ ps _ => ps
  end.

(** The call can return [res]. *)
Definition returns (a : Auditor) (services requiredTags : list string)
    (res : result AuditReport) : Prop :=
  ∃ ps calls, rtc step (AuditResources a services requiredTags) (Returned res ps calls).

(** A goroutine left behind by [return] is stuck for ever when it still has
    a send to perform: nothing receives from the channels any more. *)
Definition is_send (x : action) : bool :=
  match x with
  | Call _ => false
  | SendResource _ | SendError _ => true
  end.

Definition leaked (ps : list (list action)) : list (list action) :=
  filter (λ p, existsb is_send p = true) ps.

(** Number of actions still to perform; the loop itself counts for one. *)
Definition pending (s : coordinator) : nat :=
  match s with
  | Collecting ps _ _ => S (length (concat ps))
  | Returned _ _ _ => 0
  end.

(** ** Output streams *)

(** [io.Writer].  A [Write] that fails is taken to have written nothing. *)
Class Writer (W : Type) := Write : W → string → W * option error.

(** A destination that is either sound, and takes every [Write], or broken
    (a closed pipe), and fails every [Write] with the same error. *)
Record stream := { written : string; broken : option error }.

#[export] Instance stream_Writer : Writer stream := λ w p,
  match broken w with
  | Some e => (w, Some e)
  | None => ({| written := written w +:+ p; broken := None |}, None)
  end.

(** Standard output of the process, file descriptor 1.  It takes what is
    written, or fails every write with an error (a full disk), or is a pipe
    whose reader is gone.  On descriptors 1 and 2 a write that meets a
    closed pipe does not come back with an error: the Go runtime raises
    [SIGPIPE] and the process dies.  [sigpipe] records that this happened;
    what the program does after that point is of no account. *)
Inductive fdState :=
| Writable
| Failing (e : error)
| ClosedPipe.

Record fd := { printed : string; state : fdState; sigpipe : bool }.

#[export] Instance fd_Writer : Writer fd := λ f p,
  match state f with
  | Writable =>
      ({| printed := printed f +:+ p; state := Writable; sigpipe := sigpipe f |}, None)
  | Failing e => (f, Some e)
  | ClosedPipe =>
      ({| printed := printed f; state := ClosedPipe; sigpipe := true |}, Some "broken pipe")
  end.

(** How the process ends: with an exit status, or killed by [SIGPIPE]. *)
Inductive status :=
| Exited (code : nat)
| Killed.

(** ** JSON values, as [encoding/json] builds them *)

Inductive json :=
| JNull
| JString (s : string)
| JArray (l : list json)
| JObject (fields : list (string * json)).

(** Entries of a map in increasing key order (bytewise), the order in
    which both [fmt] and [encoding/json] print a map. *)
Definition sortedEntries (m : gmap string string) : list (string * string) :=
  merge_sort (λ x y, String.leb x.1 y.1) (map_to_list m).

Definition marshalTags (m : gomap) : json :=
  match m with
  | MapNil => JNull
  | Map g => JObject (prod_map id JString <$> sortedEntries g)
  end.

Definition marshalStrings (s : slice string) : json :=
  match s with
  | SliceNil => JNull
  | Slice l => JArray (JString <$> l)
  end.

Definition marshalResource (r : ResourceInfo) : json :=
  JObject [("service", JString (ServiceName r));
           ("resource_id", JString (ResourceID r));
           ("resource_type", JString (ResourceType r));
           ("tags", marshalTags (Tags r));
           ("missing_tags", marshalStrings (MissingTags r))].

Definition marshalReport (r : AuditReport) : json :=
  JObject [("resources",
            match Resources r with
            | SliceNil => JNull
            | Slice l => JArray (marshalResource <$> l)
            end)].

(** ** [fmt] *)

(** [%v] of a [map[string]string]: [map[k1:v1 k2:v2]], keys sorted. *)
Definition fmtMap (m : gomap) : string :=
  "map[" +:+ String.concat " " ((λ kv, kv.1 +:+ ":" +:+ kv.2) <$> sortedEntries (entries m)) +:+ "]".

(** [%v] of a [[]string]: [[a b c]]. *)
Definition fmtStrings (s : slice string) : string :=
  "[" +:+ String.concat " " (elems s) +:+ "]".

Section Presenters.
Context {W : Type} `{!Writer W}.

  (** The text [json.Encoder.Encode] produces for a value, indentation,
      escaping and final newline included: it is fixed by [encoding/json],
      not by this program. *)
Variable jsonEncode : json → string.

  (** [fmt.Fprintln] and [fmt.Fprintf] format into a buffer and hand it to
      the writer in one [Write]. *)
Definition Fprintln (w : W) (line : string) : W * option error := Write w (line +:+ nl).
Definition Fprintf (w : W) (text : string) : W * option error := Write w text.

Definition OutputJSON (r : AuditReport) (w : W) : W * option error :=
    Write w (jsonEncode (marshalReport r)).

  (** One block of the text report; what the [fmt] calls return is dropped. *)
Definition textBlock (w : W) (resource : ResourceInfo) : W :=
    let w := (Fprintf w (nl +:+ "Service: " +:+ ServiceName resource +:+ nl)).1 in
    let w := (Fprintf w ("Resource ID: " +:+ ResourceID resource +:+ nl)).1 in
    let w := (Fprintf w ("Resource Type: " +:+ ResourceType resource +:+ nl)).1 in
    let w := (Fprintf w ("Tags: " +:+ fmtMap (Tags resource) +:+ nl)).1 in
    let w :=
      if (0 <? length (elems (MissingTags resource)))%nat
      then (Fprintf w ("Missing Tags: " +:+ fmtStrings (MissingTags resource) +:+ nl)).1
      else w in
    (Fprintln w "--------------------------").1.

Definition OutputText (r : AuditReport) (w : W) : W * option error :=
    let w := (Fprintln w "AWS Resource Tag Audit Report").1 in
    let w := (Fprintln w "==========================").1 in
    let w := fold_left textBlock (elems (Resources r)) w in
    (w, None).

(** *** [bufio.Writer], the buffer [csv.NewWriter] puts before the
    destination (4096 bytes) *)

Record bufio_Writer := { wr : W; buf : string; werr : option error }.

Definition bufio_size : nat := 4096.

Definition bufio_Available (b : bufio_Writer) : nat := bufio_size - String.length (buf b).

Definition bufio_Flush (b : bufio_Writer) : bufio_Writer * option error :=
  match werr b with
  | Some e => (b, Some e)
  | None =>
      if decide (buf b = EmptyString) then (b, None)
      else
        match Write (wr b) (buf b) with
        | (w, None) => ({| wr := w; buf := EmptyString; werr := None |}, None)
        | (w, Some e) => ({| wr := w; buf := buf b; werr := Some e |}, Some e)
        end
  end.

(** A string longer than the buffer goes to the destination directly. *)
Definition bufio_direct (b : bufio_Writer) (s : string) : bufio_Writer * option error :=
  match Write (wr b) s with
  | (w, None) => ({| wr := w; buf := buf b; werr := None |}, None)
  | (w, Some e) => ({| wr := w; buf := buf b; werr := Some e |}, Some e)
  end.

(** [WriteString] (and [WriteByte], which behaves as [WriteString] of one
    byte): an earlier failure is sticky; what fits is buffered; otherwise
    the buffer is filled and flushed, and the rest is buffered or written
    directly. *)
Definition bufio_WriteString (b : bufio_Writer) (s : string) : bufio_Writer * option error :=
  match werr b with
  | Some e => (b, Some e)
  | None =>
      if (String.length s <=? bufio_Available b)%nat
      then ({| wr := wr b; buf := buf b +:+ s; werr := None |}, None)
      else if decide (buf b = EmptyString) then bufio_direct b s
      else
        let n := bufio_Available b in
        let filled := {| wr := wr b; buf := buf b +:+ String.substring 0 n s; werr := None |} in
        let rest := String.substring n (String.length s - n) s in
        match bufio_Flush filled with
        | (b', Some e) => (b', Some e)
        | (b', None) =>
            if (String.length rest <=? bufio_size)%nat
            then ({| wr := wr b'; buf := rest; werr := None |}, None)
            else bufio_direct b' rest
        end
  end.

(** Writes in sequence, stopping at the first failure. *)
Fixpoint bufio_writeAll (b : bufio_Writer) (chunks : list string) : bufio_Writer * option error :=
  match chunks with
  | [] => (b, None)
  | s :: chunks' =>
      match bufio_WriteString b s with
      | (b', Some e) => (b', Some e)
      | (b', None) => bufio_writeAll b' chunks'
      end
  end.

(** *** [encoding/csv] *)

Definition bytes (l : list nat) : string :=
  foldr (λ n s, String (Ascii.ascii_of_nat n) s) EmptyString l.

(** UTF-8 encodings of the runes for which [unicode.IsSpace] holds. *)
Definition spaceRunes : list string :=
  (bytes <$> [[9]; [10]; [11]; [12]; [13]; [32]; [194; 133]; [194; 160]; [225; 154; 128]])
  ++ ((λ n, bytes [226; 128; n]) <$> seq 128 11)
  ++ (bytes <$> [[226; 128; 168]; [226; 128; 169]; [226; 128; 175];
                 [226; 129; 159]; [227; 128; 128]]).

Fixpoint containsByte (codes : list nat) (s : string) : bool :=
  match s with
  | EmptyString => false
  | String c s' => bool_decide (Ascii.nat_of_ascii c ∈ codes) || containsByte codes s'
  end.

(** [fieldNeedsQuotes], with [Comma = ','] (44): a field is quoted when it
    holds a comma, a quote (34), CR or LF, when it starts with a space, or
    when it is [\.]. *)
Definition fieldNeedsQuotes (field : string) : bool :=
  if decide (field = EmptyString) then false
  else if decide (field = "\.") then true
  else containsByte [10; 13; 34; 44] field
       || existsb (λ p, String.prefix p field) spaceRunes.

(** The pieces written for the inside of a quoted field: runs without
    special bytes are copied, a quote is doubled, CR and LF are kept
    ([UseCRLF] is false). *)
Fixpoint quotedChunks (run field : string) : list string :=
  match field with
  | EmptyString => if decide (run = EmptyString) then [] else [run]
  | String c field' =>
      if decide (Ascii.nat_of_ascii c = 34) then run :: (dquote +:+ dquote) :: quotedChunks EmptyString field'
      else if decide (Ascii.nat_of_ascii c = 13) then run :: cr :: quotedChunks EmptyString field'
      else if decide (Ascii.nat_of_ascii c = 10) then run :: nl :: quotedChunks EmptyString field'
      else quotedChunks (run +:+ String c EmptyString) field'
  end.

Definition fieldChunks (field : string) : list string :=
  if fieldNeedsQuotes field
  then dquote :: quotedChunks EmptyString field ++ [dquote]
  else [field].

(** [csv.Writer.Write]: the fields separated by commas, then a newline. *)
Definition recordChunks (record : list string) : list string :=
  match record with
  | [] => [nl]
  | field :: fields => fieldChunks field ++ (fields ≫= λ f, "," :: fieldChunks f) ++ [nl]
  end.

Definition csv_NewWriter (w : W) : bufio_Writer :=
  {| wr := w; buf := EmptyString; werr := None |}.

Definition csv_Write (writer : bufio_Writer) (record : list string) : bufio_Writer * option error :=
  bufio_writeAll writer (recordChunks record).

(** *** The CSV presenter *)

Definition header : list string :=
  ["Service"; "Resource ID"; "Resource Type"; "Tags"; "Missing Tags"].

(** [for k, v := range resource.Tags] visits the entries in an order that
    Go leaves open and that changes from one loop to the next; [visit] is
    the order taken for this resource. *)
Definition csvRow (resource : ResourceInfo) (visit : list (string * string)) : list string :=
  let tagsStr := (λ kv, kv.1 +:+ ":" +:+ kv.2) <$> visit in
  [ServiceName resource;
   ResourceID resource;
   ResourceType resource;
   String.concat "; " tagsStr;
   String.concat "; " (elems (MissingTags resource))].

Fixpoint writeRows (visits : list (list (string * string))) (resources : list ResourceInfo)
    (writer : bufio_Writer) : bufio_Writer * option error :=
  match resources with
  | [] => (writer, None)
  | resource :: resources' =>
      let visit := default (map_to_list (entries (Tags resource))) (head visits) in
      match csv_Write writer (csvRow resource visit) with
      | (writer', Some err) => (writer', Some ("error writing CSV row: " +:+ err))
      | (writer', None) => writeRows (tail visits) resources' writer'
      end
  end.

(** [defer writer.Flush()] runs at every [return]; [csv.Writer.Flush] has no
    result, so a failure of the flush does not reach the caller. *)
Definition OutputCSV (visits : list (list (string * string))) (r : AuditReport) (w : W)
    : W * option error :=
  let writer := csv_NewWriter w in
  let '(writer', res) :=
    match csv_Write writer header with
    | (writer', Some err) => (writer', Some ("error writing CSV header: " +:+ err))
    | (writer', None) => writeRows visits (elems (Resources r)) writer'
    end in
  (wr (bufio_Flush writer').1, res).

(** [visits] gives, for each resource of the report, an order in which
    [range] can visit its tags. *)
Definition rangeOrders (r : AuditReport) (visits : list (list (string * string))) : Prop :=
  Forall2 (λ resource visit, visit ≡ₚ map_to_list (entries (Tags resource)))
          (elems (Resources r)) visits.

(** ** The command line *)

(** [runAudit], with [os.Stdout] as [stdout] and the auditor [NewAuditor]
    built.  The audit comes first; the [switch] on the format is reached
    only with a report.  [out] is the stream afterwards with the error
    returned, [calls] the requests sent to the cloud before
    [AuditResources] returned. *)
Definition runAudit (a : Auditor) (services requiredTags : list string) (outputFormat : string)
    (stdout : W) (out : W * option error) (calls : list api) : Prop :=
  ∃ res ps,
    rtc step (AuditResources a services requiredTags) (Returned res ps calls) ∧
    match res with
    | Err err => out = (stdout, Some ("failed to audit resources: " +:+ err))
    | Ok report =>
        if decide (outputFormat = "json") then out = OutputJSON report stdout
        else if decide (outputFormat = "csv") then
          ∃ visits, rangeOrders report visits ∧ out = OutputCSV visits report stdout
        else if decide (outputFormat = "text") then out = OutputText report stdout
        else out = (stdout, Some ("unsupported output format: " +:+ outputFormat))
    end.

(** The flags of [audit] as given on the command line ([None]: not given). *)
Record Flags := {
  required_tags : option (list string);
  output : option string;
  services : option (list string)
}.

End Presenters.

(** [main] for the [audit] command, with [os.Stdout] as [stdout] and
    standard error taken to accept what is written to it.  [required-tags]
    is marked required: cobra refuses the command line before [Run] when it
    is not given, and [main] prints the error on standard output and exits
    with 1.  Otherwise [Run] calls [runAudit]: [NewAuditor] panics (exit
    status 2) when the SDK configuration cannot be loaded ([newAuditor] is
    [Err]), and [log.Fatalf] exits with 1 when [runAudit] returns an
    error.  A write to a closed pipe kills the process wherever it
    happens. *)
Definition main (jsonEncode : json → string) (newAuditor : result Auditor) (args : Flags)
    (stdout : fd) (ends : status) (stdout' : fd) (calls : list api) : Prop :=
  ∃ code,
    match required_tags args with
    | None =>
        stdout' = (Fprintln stdout ("required flag(s) " +:+ dquote +:+ "required-tags"
                                    +:+ dquote +:+ " not set")).1
        ∧ code = 1 ∧ calls = []
    | Some requiredTags =>
        match newAuditor with
        | Err _ => stdout' = stdout ∧ code = 2 ∧ calls = []
        | Ok a =>
            ∃ err,
              runAudit jsonEncode a (default ["ec2"; "s3"; "rds"; "lambda"] (services args))
                       requiredTags (default "text" (output args)) stdout (stdout', err) calls
              ∧ code = match err with Some _ => 1 | None => 0 end
        end
    end
    ∧ ends = if sigpipe stdout' then Killed else Exited code.

(** The shape of every record a provider sends: an allocated tag map, and
    the result of the missing-tags loop on that map. *)
Definition audited (requiredTags : list string) (r : ResourceInfo) : Prop :=
  ∃ tags, Tags r = Map tags ∧ MissingTags r = missingTags tags requiredTags.

(** What a state accounts for: the requests made, the records collected
    and the actions still to come.  A failure drops the report. *)
Definition account (s : coordinator) : list action :=
  match s with
  | Collecting ps report calls | Returned (Ok report) ps calls =>
      (Call <$> calls) ++ (SendResource <$> elems (Resources report)) ++ concat ps
  | Returned (Err _) ps calls => (Call <$> calls) ++ concat ps
  end.

Definition failed (s : coordinator) : Prop :=
  match s with
  | Returned (Err _) _ _ => True
  | _ => False
  end.

(** With a single producer the run is determined. *)
Fixpoint runSingle (p : list action) (report : AuditReport) (calls : list api) : coordinator :=
  match p with
  | [] => Returned (Ok report) [[]] calls
  | Call c :: rest => runSingle rest report (calls ++ [c])
  | SendResource r :: rest => runSingle rest {| Resources := append (Resources report) r |} calls
  | SendError err :: rest => Returned (Err err) [rest] calls
  end.

(** ** The CSV text *)

(** The bytes [csv.Writer.Write] produces for one record. *)
Definition csvLine (record : list string) : string :=
  foldr String.append EmptyString (recordChunks record).

(** The rows of a report, each with the order in which its tags are
    visited (as in [writeRows]). *)
Fixpoint csvRows (visits : list (list (string * string))) (resources : list ResourceInfo)
    : list (list string) :=
  match resources with
  | [] => []
  | resource :: resources' =>
      csvRow resource (default (map_to_list (entries (Tags resource))) (head visits))
      :: csvRows (tail visits) resources'
  end.

Definition csvText (visits : list (list (string * string))) (r : AuditReport) : string :=
  foldr String.append EmptyString (csvLine <$> header :: csvRows visits (elems (Resources r))).

(** A buffered writer over a [stream] that has met no failure, and the text
    that has gone through it. *)
Definition healthy (b : @bufio_Writer stream) : Prop :=
  werr b = None ∧ broken (wr b) = None.

Definition flushed (b : @bufio_Writer stream) : string := written (wr b) +:+ buf b.

(** The identifiers the [switch] of [AuditResources] has a case for. *)
Definition knownServices : list string := ["ec2"; "s3"; "rds"; "lambda"].

(** ** Running examples *)

(** The instance of the README: tags [Name] and [environment]. *)
Definition exampleInstance : ec2.Instance :=
  {| ec2.InstanceId := "i-1234567890abcdef0";
     ec2.Tags := [{| ec2.Key := "Name"; ec2.Value := "webserver" |};
                  {| ec2.Key := "environment"; ec2.Value := "production" |}] |}.

Definition exampleFunctions : list lambda.FunctionConfiguration :=
  [{| lambda.FunctionArn := "arn:aws:lambda:eu-west-1:1:function:resize";
      lambda.FunctionName := "resize" |};
   {| lambda.FunctionArn := "arn:aws:lambda:eu-west-1:1:function:notify";
      lambda.FunctionName := "notify" |}].

(** An account with that instance, one bucket and two functions, in which
    the caller may list everything but may not read bucket or function
    tags. *)
Definition exampleAuditor : Auditor :=
  {| ec2Client := Ok [{| ec2.Instances := [exampleInstance] |}];
     s3Client := (Ok [{| s3.Name := "logs" |}], λ _, Err "AccessDenied");
     rdsClient := Ok [];
     lambdaClient := (Ok exampleFunctions, λ _, Err "AccessDenied") |}.

Definition exampleTags : gmap string string :=
  <["Name" := "webserver"]> (<["environment" := "production"]> ∅).

Definition exampleRecord : ResourceInfo :=
  {| ServiceName := "EC2";
     ResourceID := "i-1234567890abcdef0";
     ResourceType := "Instance";
     Tags := Map exampleTags;
     MissingTags := Slice ["project"; "owner"] |}.

Definition exampleReport : AuditReport := {| Resources := Slice [exampleRecord] |}.

(** The same instance audited with [-t owner,owner]. *)
Definition duplicateRecord : ResourceInfo :=
  {| ServiceName := "EC2";
     ResourceID := "i-1234567890abcdef0";
     ResourceType := "Instance";
     Tags := Map exampleTags;
     MissingTags := Slice ["owner"; "owner"] |}.

(** The bucket, whose tags could not be read. *)
Definition bucketRecord (requiredTags : list string) : ResourceInfo :=
  {| ServiceName := "S3";
     ResourceID := "logs";
     ResourceType := "Bucket";
     Tags := Map ∅;
     MissingTags := Slice requiredTags |}.

Definition terminal : stream := {| written := EmptyString; broken := None |}.
Definition closedPipe : stream := {| written := EmptyString; broken := Some "broken pipe" |}.

(** The examples print no JSON: any encoder will do for them. *)
Definition jsonExample (j : json) : string := "{}" +:+ nl.

(** What is left of the Lambda producer of the example once its first
    failure has been received: it goes on to the second function and then
    waits on [errorChan]. *)
Definition stuckProducer : list action :=
  [Call (ListTags "arn:aws:lambda:eu-west-1:1:function:notify");
   SendError "failed to get tags for Lambda function notify: AccessDenied"].

(** [audit -t owner -s ec2 -o xml] *)
Definition xmlFlags : Flags :=
  {| required_tags := Some ["owner"]; output := Some "xml"; services := Some ["ec2"] |}.

(** [audit -t owner -s ec2], the output going to a closed pipe. *)
Definition textFlags : Flags :=
  {| required_tags := Some ["owner"]; output := None; services := Some ["ec2"] |}.

(** The two orders in which [range] can visit the tags of the example. *)
Definition nameFirst : list (string * string) :=
  [("Name", "webserver"); ("environment", "production")].

Definition environmentFirst : list (string * string) :=
  [("environment", "production"); ("Name", "webserver")].

Definition csvHeaderLine : string := "Service,Resource ID,Resource Type,Tags,Missing Tags" +:+ nl.

(** The row of the README, with its quoted fields. *)
Definition quotedRow : string :=
  "EC2,i-1234567890abcdef0,Instance," +:+ dquote +:+ "Name:webserver; environment:production"
  +:+ dquote +:+ "," +:+ dquote +:+ "project; owner" +:+ dquote +:+ nl.

(** ** What a producer does, by kind *)

(** The records a producer sends, the failures it sends and the requests
    it makes, each in program order. *)
Definition records (p : list action) : list ResourceInfo :=
  omap (λ x, match x with SendResource r => Some r | _ => None end) p.

Definition failures (p : list action) : list error :=
  omap (λ x, match x with SendError e => Some e | _ => None end) p.

Definition requests (p : list action) : list api :=
  omap (λ x, match x with Call c => Some c | _ => None end) p.

(** [l] is a merge of the lists [ls]: it takes their elements, each list in
    its own order. *)
Inductive interleave {A : Type} : list (list A) → list A → Prop :=
| interleave_done ls : Forall (λ l, l = []) ls → interleave ls []
| interleave_next ls i x rest l :
    ls !! i = Some (x :: rest) →
    interleave (<[i := rest]> ls) l →
    interleave ls (x :: l).

(** ** The text report *)

(** The block of one resource. *)
Definition textBlockText (resource : ResourceInfo) : string :=
  (nl +:+ "Service: " +:+ ServiceName resource +:+ nl)
  +:+ ("Resource ID: " +:+ ResourceID resource +:+ nl)
  +:+ ("Resource Type: " +:+ ResourceType resource +:+ nl)
  +:+ ("Tags: " +:+ fmtMap (Tags resource) +:+ nl)
  +:+ (match elems (MissingTags resource) with
       | [] => EmptyString
       | _ => "Missing Tags: " +:+ fmtStrings (MissingTags resource) +:+ nl
       end)
  +:+ ("--------------------------" +:+ nl).

Definition textReport (r : AuditReport) : string :=
  ("AWS Resource Tag Audit Report" +:+ nl)
  +:+ ("==========================" +:+ nl)
  +:+ foldr String.append EmptyString (textBlockText <$> elems (Resources r)).

(** ** Runs by a given schedule *)

(** The run in which the [select] loop serves the producers in the order
    given: [i] in the list lets producer [i] make its next call or pass its
    next send; at the end of the list the loop takes [done] if it is
    offered.  An entry that names no ready producer stops the run there. *)
Fixpoint schedule (order : list nat) (s : coordinator) : coordinator :=
  match s with
  | Returned _ _ _ => s
  | Collecting ps report calls =>
      match order with
      | [] =>
          if forallb (λ p, match p with [] => true | _ => false end) ps
          then Returned (Ok report) ps calls
          else s
      | i :: order' =>
          match ps !! i with
          | Some (Call c :: rest) =>
              schedule order' (Collecting (<[i := rest]> ps) report (calls ++ [c]))
          | Some (SendResource r :: rest) =>
              schedule order' (Collecting (<[i := rest]> ps)
                                          {| Resources := append (Resources report) r |} calls)
          | Some (SendError err :: rest) => Returned (Err err) (<[i := rest]> ps) calls
          | _ => s
          end
      end
  end.

(** ** A second example: a small fleet *)

Definition webInstance : ec2.Instance :=
  {| ec2.InstanceId := "i-0a1";
     ec2.Tags := [{| ec2.Key := "Name"; ec2.Value := "web" |};
                  {| ec2.Key := "team"; ec2.Value := "shop" |}] |}.

Definition batchInstance : ec2.Instance := {| ec2.InstanceId := "i-0b2"; ec2.Tags := [] |}.

(** A database whose tag list gives [owner] twice. *)
Definition ordersDB : rds.DBInstance :=
  {| rds.DBInstanceIdentifier := "orders";
     rds.TagList := [{| rds.Key := "owner"; rds.Value := "dba" |};
                     {| rds.Key := "team"; rds.Value := "shop" |};
                     {| rds.Key := "owner"; rds.Value := "sre" |}] |}.

(** Two instances in two reservations, two buckets of which only [assets]
    lets its tags be read, one database, no function. *)
Definition fleetAuditor : Auditor :=
  {| ec2Client := Ok [{| ec2.Instances := [webInstance] |};
                      {| ec2.Instances := [batchInstance] |}];
     s3Client := (Ok [{| s3.Name := "logs" |}; {| s3.Name := "assets" |}],
                  λ bucket, if decide (bucket = "assets")
                            then Ok [{| s3.Key := "team"; s3.Value := "shop" |}]
                            else Err "AccessDenied");
     rdsClient := Ok [ordersDB];
     lambdaClient := (Ok [], λ _, Err "AccessDenied") |}.

(** The records of the fleet audited with [-t owner,team]. *)
Definition webRecord : ResourceInfo :=
  {| ServiceName := "EC2"; ResourceID := "i-0a1"; ResourceType := "Instance";
     Tags := Map (<["team" := "shop"]> (<["Name" := "web"]> ∅));
     MissingTags := Slice ["owner"] |}.

Definition batchRecord : ResourceInfo :=
  {| ServiceName := "EC2"; ResourceID := "i-0b2"; ResourceType := "Instance";
     Tags := Map ∅;
     MissingTags := Slice ["owner"; "team"] |}.

Definition assetsRecord : ResourceInfo :=
  {| ServiceName := "S3"; ResourceID := "assets"; ResourceType := "Bucket";
     Tags := Map (<["team" := "shop"]> ∅);
     MissingTags := Slice ["owner"] |}.

Definition ordersRecord : ResourceInfo :=
  {| ServiceName := "RDS"; ResourceID := "orders"; ResourceType := "DBInstance";
     Tags := Map (<["owner" := "sre"]> (<["team" := "shop"]> ∅));
     MissingTags := Slice [] |}.

(** The web instance audited with no required tag. *)
Definition webRecordFree : ResourceInfo :=
  {| ServiceName := "EC2"; ResourceID := "i-0a1"; ResourceType := "Instance";
     Tags := Map (<["team" := "shop"]> (<["Name" := "web"]> ∅));
     MissingTags := Slice [] |}.

(** The reports of three audits of the fleet: EC2 alone, S3 alone, and
    both, the records arriving as the schedule [[1; 0; 1; 1; 0; 0; 1; 1]]
    lets them. *)
Definition ec2Report : AuditReport := {| Resources := Slice [webRecord; batchRecord] |}.

Definition s3Report : AuditReport :=
  {| Resources := Slice [bucketRecord ["owner"; "team"]; assetsRecord] |}.

Definition fleetReport : AuditReport :=
  {| Resources := Slice [bucketRecord ["owner"; "team"]; webRecord; batchRecord; assetsRecord] |}.

(** ** Standard output, three cases *)

Definition console : fd := {| printed := EmptyString; state := Writable; sigpipe := false |}.

(** [> /dev/full] *)
Definition fullDisk : fd :=
  {| printed := EmptyString;
     state := Failing "write /dev/stdout: no space left on device";
     sigpipe := false |}.

(** [| true] *)
Definition closedPipeOut : fd :=
  {| printed := EmptyString; state := ClosedPipe; sigpipe := false |}.

(** [audit -t owner -s ec2 -o json] *)
Definition jsonFlags : Flags :=
  {| required_tags := Some ["owner"]; output := Some "json"; services := Some ["ec2"] |}.

(** [audit -s ec2], without the required flag. *)
Definition bareFlags : Flags :=
  {| required_tags := None; output := None; services := Some ["ec2"] |}.

(** * Properties *)

(** ** Providers *)

Lemma missingTags_from (tags : gmap string string) (requiredTags acc : list string) :
  fold_left
    (λ missing required,
       match tags !! required with
       | Some _ => missing
       | None => append missing required
       end)
    requiredTags (Slice acc)
  = Slice (acc ++ filter (λ t, tags !! t = None) requiredTags).
Proof.
  revert acc. induction requiredTags as [|t l IH]; intros acc; simpl.
  - by rewrite app_nil_r.
  - rewrite filter_cons. case_decide as E.
    + rewrite E. unfold append at 2. simpl. rewrite IH. by rewrite <- app_assoc.
    + destruct (tags !! t); [|done]. by rewrite IH.
Qed.

(** The loop computes the required tags that are not keys of the map, in
    the order of [requiredTags]. *)
Lemma missingTags_filter (tags : gmap string string) (requiredTags : list string) :
  missingTags tags requiredTags = Slice (filter (λ t, tags !! t = None) requiredTags).
Proof. unfold missingTags, make_slice. by rewrite missingTags_from. Qed.

(** Copying a map entry by entry gives the map back, whatever the order of
    the visit. *)
Lemma copyTags_lookup (visit : list (string * string)) (acc : gmap string string) (k : string) :
  NoDup visit.*1 →
  fold_left (λ tags kv, <[kv.1 := kv.2]> tags) visit acc !! k
  = match list_to_map (M := gmap string string) visit !! k with
    | Some v => Some v
    | None => acc !! k
    end.
Proof.
  revert acc. induction visit as [|[k' v'] l IH]; intros acc Hnd; simpl.
  - by rewrite lookup_empty.
  - apply NoDup_cons in Hnd as [Hk' Hnd]. rewrite IH by done.
    destruct (decide (k' = k)) as [->|Hne].
    + rewrite lookup_insert_eq.
      rewrite (not_elem_of_list_to_map_1 l k) by done.
      by rewrite lookup_insert_eq.
    + rewrite !lookup_insert_ne by done. done.
Qed.

Lemma copyTags_any_order (m : gmap string string) (visit : list (string * string)) :
  visit ≡ₚ map_to_list m → copyTags visit = m.
Proof.
  intros Hp. apply map_eq. intros k. unfold copyTags.
  assert (NoDup visit.*1) as Hnd.
  { rewrite Hp. apply NoDup_fst_map_to_list. }
  rewrite copyTags_lookup by done.
  rewrite (list_to_map_proper (M := gmap string) visit (map_to_list m)) by done.
  rewrite list_to_map_to_list, lookup_empty. by destruct (m !! k).
Qed.

Lemma auditEC2_sends a requiredTags r :
  SendResource r ∈ auditEC2 a requiredTags → audited requiredTags r.
Proof.
  unfold auditEC2. rewrite elem_of_cons. intros [?|Hin]; [done|].
  destruct (ec2Client a) as [reservations|err].
  - apply list_elem_of_bind in Hin as (reservation & Hin & _).
    apply list_elem_of_bind in Hin as (instance & Hin & _).
    apply list_elem_of_singleton in Hin. injection Hin as ->. by eexists.
  - apply list_elem_of_singleton in Hin. done.
Qed.

Lemma auditS3_sends a requiredTags r :
  SendResource r ∈ auditS3 a requiredTags → audited requiredTags r.
Proof.
  unfold auditS3. rewrite elem_of_cons. intros [?|Hin]; [done|].
  destruct (s3Client a).1 as [buckets|err].
  - apply list_elem_of_bind in Hin as (bucket & Hin & _).
    rewrite !elem_of_cons in Hin. destruct Hin as [?|[Hin|Hin]]; [done| |by inversion Hin].
    injection Hin as ->. by eexists.
  - apply list_elem_of_singleton in Hin. done.
Qed.

Lemma auditRDS_sends a requiredTags r :
  SendResource r ∈ auditRDS a requiredTags → audited requiredTags r.
Proof.
  unfold auditRDS. rewrite elem_of_cons. intros [?|Hin]; [done|].
  destruct (rdsClient a) as [instances|err].
  - apply list_elem_of_bind in Hin as (instance & Hin & _).
    apply list_elem_of_singleton in Hin. injection Hin as ->. by eexists.
  - apply list_elem_of_singleton in Hin. done.
Qed.

Lemma auditLambda_sends a requiredTags r :
  SendResource r ∈ auditLambda a requiredTags → audited requiredTags r.
Proof.
  unfold auditLambda. rewrite elem_of_cons. intros [?|Hin]; [done|].
  destruct (lambdaClient a).1 as [functions|err].
  - apply list_elem_of_bind in Hin as (function & Hin & _).
    rewrite elem_of_cons in Hin. destruct Hin as [?|Hin]; [done|].
    destruct ((lambdaClient a).2 _); apply list_elem_of_singleton in Hin; [|done].
    injection Hin as ->. by eexists.
  - apply list_elem_of_singleton in Hin. done.
Qed.

Lemma producer_sends a requiredTags svc r :
  SendResource r ∈ producer a requiredTags svc → audited requiredTags r.
Proof.
  unfold producer. repeat case_decide.
  - apply auditEC2_sends.
  - apply auditS3_sends.
  - apply auditRDS_sends.
  - apply auditLambda_sends.
  - by intros ?%elem_of_nil.
Qed.

(** ** The step relation *)

Lemma elem_of_concat {A} (x : A) (ls : list (list A)) :
  x ∈ concat ls ↔ ∃ l, l ∈ ls ∧ x ∈ l.
Proof.
  rewrite list_elem_of_In, in_concat.
  split; intros (l & Hl & Hx); exists l; by rewrite ?list_elem_of_In in *.
Qed.

Lemma concat_take (ps : list (list action)) i x rest :
  ps !! i = Some (x :: rest) → concat ps ≡ₚ x :: concat (<[i := rest]> ps).
Proof.
  intros Hi. rewrite <- (take_drop_middle ps i _ Hi) at 1.
  rewrite insert_take_drop by (by eapply lookup_lt_Some).
  rewrite !concat_app, !concat_cons. simpl.
  by rewrite <- Permutation_middle.
Qed.

Lemma step_pending s s' : step s s' → pending s' < pending s.
Proof.
  destruct 1 as [ps ? ? i c rest Hi|ps ? ? i r rest Hi|ps ? ? i err rest Hi|]; simpl;
    try lia; rewrite (concat_take ps i _ rest Hi); simpl; lia.
Qed.

(** The loop never blocks: some producer is ready to call or to send, or
    all of them are over and [done] is ready. *)
Lemma step_progress ps report calls : red step (Collecting ps report calls).
Proof.
  destruct (decide (Forall (λ p, p = []) ps)) as [Hall|Hex].
  - eexists. by apply step_done.
  - apply not_Forall_Exists in Hex; [|solve_decision].
    apply Exists_exists in Hex as (p & Hp & Hne).
    apply list_elem_of_lookup in Hp as [i Hi].
    simpl in Hne. destruct p as [|[c|r|err] rest]; [done|..]; eexists.
    + by eapply step_call.
    + by eapply step_resource.
    + by eapply step_error.
Qed.

Lemma Returned_nf res ps calls : nf step (Returned res ps calls).
Proof. intros [s Hs]. inversion Hs. Qed.

Lemma nf_Returned s : nf step s → ∃ res ps calls, s = Returned res ps calls.
Proof.
  destruct s as [ps report calls|res ps calls]; [|by eauto].
  intros Hnf. destruct Hnf. apply step_progress.
Qed.

(** No run is infinite. *)
Lemma step_sn s : sn step s.
Proof.
  remember (pending s) as n eqn:Hn. revert s Hn.
  induction (lt_wf n) as [n _ IH]. intros s ->.
  constructor. intros s' Hs'. eapply IH; [|done]. by apply step_pending.
Qed.

(** Every state runs to a return. *)
Lemma run_exists s : ∃ s', rtc step s s' ∧ nf step s'.
Proof.
  induction (step_sn s) as [s _ IH].
  destruct s as [ps report calls|res ps calls].
  - destruct (step_progress ps report calls) as [s1 H1].
    destruct (IH s1 H1) as (s' & Hrun & Hnf).
    exists s'. split; [by eapply rtc_l|done].
  - eexists. split; [done|apply Returned_nf].
Qed.

Lemma step_account_perm s s' : step s s' → ¬ failed s' → account s' ≡ₚ account s.
Proof.
  destruct 1 as [ps ? ? i c rest Hi|ps ? ? i r rest Hi|ps ? ? i err rest Hi|]; simpl;
    intros Hok; [| |by destruct Hok|done]; rewrite (concat_take ps i _ rest Hi);
    rewrite fmap_app; simpl; rewrite <- !app_assoc; simpl.
  - by rewrite <- !Permutation_middle.
  - by rewrite <- !Permutation_middle.
Qed.

Lemma step_account s s' : step s s' → account s' ⊆ account s.
Proof.
  intros Hs x. inversion Hs as [| |ps ? ? i err rest Hi|]; subst;
    try (rewrite (step_account_perm _ _ Hs) by (simpl; tauto); done).
  simpl. rewrite (concat_take ps i _ rest Hi).
  rewrite !elem_of_app, elem_of_cons. tauto.
Qed.

Lemma run_account s s' : rtc step s s' → account s' ⊆ account s.
Proof.
  induction 1 as [|s s1 s' H1 _ IH]; [done|].
  etrans; [apply IH|by apply step_account].
Qed.

Lemma run_account_perm s s' : rtc step s s' → ¬ failed s' → account s' ≡ₚ account s.
Proof.
  induction 1 as [s|s s1 s' H1 Hrun IH]; [done|]. intros Hok.
  rewrite (IH Hok). apply step_account_perm; [done|].
  intros Hf. destruct s1 as [|[|] ? ?]; try done.
  apply rtc_nf in Hrun; [|apply Returned_nf]. by subst.
Qed.

(** A run that starts with a failure still to be sent can only end by
    returning one of the failures the producers hold: [done] is not
    offered while a producer waits on [errorChan]. *)
Lemma run_error ps report calls s' e :
  SendError e ∈ concat ps →
  rtc step (Collecting ps report calls) s' →
  nf step s' →
  ∃ e' ps' calls', s' = Returned (Err e') ps' calls' ∧ SendError e' ∈ concat ps.
Proof.
  intros He Hrun. remember (Collecting ps report calls) as s eqn:Hs.
  revert ps report calls He Hs.
  induction Hrun as [s|s s1 s' H1 Hrun IH]; intros ps report calls He -> Hnf.
  { destruct Hnf. apply step_progress. }
  inversion H1 as [? ? ? i c rest Hi|? ? ? i r rest Hi|? ? ? i err rest Hi|? ? ? Hall]; subst.
  - pose proof (concat_take ps i _ rest Hi) as Hp.
    edestruct (IH (<[i := rest]> ps)) as (e' & ps' & calls' & -> & He'); [|done|done|].
    { rewrite Hp, elem_of_cons in He. by destruct He. }
    exists e', ps', calls'. split; [done|]. rewrite Hp. by right.
  - pose proof (concat_take ps i _ rest Hi) as Hp.
    edestruct (IH (<[i := rest]> ps)) as (e' & ps' & calls' & -> & He'); [|done|done|].
    { rewrite Hp, elem_of_cons in He. by destruct He. }
    exists e', ps', calls'. split; [done|]. rewrite Hp. by right.
  - apply rtc_nf in Hrun as <-; [|apply Returned_nf].
    eexists _, _, _. split; [done|].
    rewrite (concat_take ps i _ rest Hi). by left.
  - apply concat_nil_Forall in Hall. rewrite Hall in He. by apply elem_of_nil in He.
Qed.

(** A report is returned only when every producer is over, and it then
    holds every record sent and nothing else; every request was made. *)
Lemma run_report a services requiredTags report ps calls :
  rtc step (AuditResources a services requiredTags) (Returned (Ok report) ps calls) →
  Forall (λ p, p = []) ps
  ∧ (Call <$> calls) ++ (SendResource <$> elems (Resources report))
    ≡ₚ concat (producer a requiredTags <$> services).
Proof.
  intros Hrun.
  assert (Forall (λ p, p = []) ps) as Hall.
  { destruct (rtc_inv_r _ _ Hrun) as [Heq|(s & _ & Hs)]; [done|]. by inversion Hs. }
  split; [done|].
  apply run_account_perm in Hrun; [|by intros []]. simpl in Hrun.
  apply concat_nil_Forall in Hall. by rewrite Hall, !app_nil_r in Hrun.
Qed.

Lemma report_records a services requiredTags report ps calls r :
  rtc step (AuditResources a services requiredTags) (Returned (Ok report) ps calls) →
  r ∈ elems (Resources report) ↔ ∃ svc, svc ∈ services ∧ SendResource r ∈ producer a requiredTags svc.
Proof.
  intros [_ Hp]%run_report.
  transitivity (SendResource r ∈ concat (producer a requiredTags <$> services)).
  - rewrite <- Hp, elem_of_app, !list_elem_of_fmap. split.
    + intros Hr. right. by exists r.
    + intros [(c & ? & _)|(r' & [= ->] & Hr)]; done.
  - split.
    + intros (p & (svc & -> & Hsvc)%list_elem_of_fmap & Hr)%elem_of_concat. eauto.
    + intros (svc & Hsvc & Hr). apply elem_of_concat.
      exists (producer a requiredTags svc). split; [|done].
      apply list_elem_of_fmap. eauto.
Qed.

Lemma runSingle_run p report calls : rtc step (Collecting [p] report calls) (runSingle p report calls).
Proof.
  revert report calls. induction p as [|[c|r|err] rest IH]; intros report calls; simpl.
  - apply rtc_once, step_done. by constructor.
  - eapply rtc_l; [|apply IH]. by apply (step_call [_] _ _ 0).
  - eapply rtc_l; [|apply IH]. by apply (step_resource [_] _ _ 0).
  - apply rtc_once. by apply (step_error [_] _ _ 0).
Qed.

Lemma runSingle_only p report calls s' :
  rtc step (Collecting [p] report calls) s' → nf step s' → s' = runSingle p report calls.
Proof.
  revert report calls. induction p as [|x rest IH]; intros report calls Hrun Hnf.
  - inversion Hrun as [|? s1 ? H1 Hrest]; subst; [destruct Hnf; apply step_progress|].
    inversion H1 as [? ? ? i ? ? Hi|? ? ? i ? ? Hi|? ? ? i ? ? Hi|]; subst;
      try (destruct i; simpl in Hi; done).
    apply rtc_nf in Hrest; [done|apply Returned_nf].
  - inversion Hrun as [|? s1 ? H1 Hrest]; subst; [destruct Hnf; apply step_progress|].
    inversion H1 as [? ? ? i ? ? Hi|? ? ? i ? ? Hi|? ? ? i ? ? Hi|? ? ? Hall]; subst;
      try (destruct i as [|i]; [|by destruct i]; simplify_eq/=).
    + by apply IH.
    + by apply IH.
    + apply rtc_nf in Hrest; [done|apply Returned_nf].
    + by inversion Hall.
Qed.

(** A failure that is returned was sent by a producer. *)
Lemma run_returned_error a services requiredTags e ps calls :
  rtc step (AuditResources a services requiredTags) (Returned (Err e) ps calls) →
  SendError e ∈ concat (producer a requiredTags <$> services).
Proof.
  intros Hrun.
  destruct (rtc_inv_r _ _ Hrun) as [?|(s1 & Hrun1 & Hlast)]; [done|].
  inversion Hlast as [| |ps1 ? ? i ? rest Hi|]; subst.
  apply run_account in Hrun1. apply (Hrun1 (SendError e)).
  simpl. rewrite !elem_of_app. right. right.
  rewrite (concat_take ps1 i _ rest Hi). by left.
Qed.

(** ** Records and their missing tags *)

Lemma exampleAuditor_ec2 requiredTags :
  producer exampleAuditor requiredTags "ec2"
  = [Call DescribeInstances;
     SendResource {| ServiceName := "EC2";
                     ResourceID := "i-1234567890abcdef0";
                     ResourceType := "Instance";
                     Tags := Map exampleTags;
                     MissingTags := missingTags exampleTags requiredTags |}].
Proof.
  assert (collectTags ec2.Key ec2.Value (ec2.Tags exampleInstance) = exampleTags) as Htags
    by (by vm_compute).
  unfold producer. rewrite decide_True by (by vm_compute).
  unfold auditEC2. cbn -[collectTags missingTags] in *. by rewrite Htags.
Qed.

(** C1, as stated, fails: the loop appends a required tag once for each time
    it occurs in the input, so [-t owner,owner] on an instance without the
    tag gives the list [owner; owner]. *)
Lemma missing_tags_duplicated :
  SendResource duplicateRecord ∈ producer exampleAuditor ["owner"; "owner"] "ec2"
  ∧ ¬ NoDup (elems (MissingTags duplicateRecord)).
Proof.
  split.
  - rewrite exampleAuditor_ec2. apply list_elem_of_further, list_elem_of_here.
  - simpl. rewrite NoDup_cons. intros [Hin _]. apply Hin. by left.
Qed.

(** C1 (amended).  For every record a provider sends, [missing_tags] is the
    list of the required tags that are not keys of the record's tag map, in
    the order of the required-tags input; it is free of duplicates whenever
    that input is. *)
Theorem missing_tags_invariant a requiredTags svc r :
  SendResource r ∈ producer a requiredTags svc →
  MissingTags r = Slice (filter (λ t, entries (Tags r) !! t = None) requiredTags)
  ∧ (NoDup requiredTags → NoDup (elems (MissingTags r))).
Proof.
  intros (tags & Htags & Hmissing)%producer_sends.
  rewrite Hmissing, Htags, missingTags_filter. simpl.
  split; [done|]. apply NoDup_filter.
Qed.

Lemma missing_tags_invariant_witness :
  MissingTags exampleRecord
  = Slice (filter (λ t, entries (Tags exampleRecord) !! t = None)
                  ["environment"; "project"; "owner"])
  ∧ (NoDup ["environment"; "project"; "owner"] → NoDup (elems (MissingTags exampleRecord))).
Proof.
  apply (missing_tags_invariant exampleAuditor ["environment"; "project"; "owner"] "ec2").
  rewrite exampleAuditor_ec2.
  assert (missingTags exampleTags ["environment"; "project"; "owner"]
          = Slice ["project"; "owner"]) as -> by (by vm_compute).
  apply list_elem_of_further, list_elem_of_here.
Defined.

(** The same holds of every record of a returned report. *)
Lemma report_missing_tags a services requiredTags report ps calls r :
  rtc step (AuditResources a services requiredTags) (Returned (Ok report) ps calls) →
  r ∈ elems (Resources report) →
  MissingTags r = Slice (filter (λ t, entries (Tags r) !! t = None) requiredTags).
Proof.
  intros Hrun (svc & _ & Hr)%(report_records _ _ _ _ _ _ _ Hrun).
  apply producer_sends in Hr as (tags & Htags & Hmissing).
  by rewrite Hmissing, Htags, missingTags_filter.
Qed.

(** C10.  Every record a provider sends holds an allocated tag map and an
    allocated missing-tags slice, so that [encoding/json] prints [tags] as
    an object and [missing_tags] as an array, never as [null]. *)
Theorem record_fields_allocated a requiredTags svc r :
  SendResource r ∈ producer a requiredTags svc →
  (∃ tags, Tags r = Map tags)
  ∧ (∃ missing, MissingTags r = Slice missing)
  ∧ (∃ fields, marshalTags (Tags r) = JObject fields)
  ∧ (∃ items, marshalStrings (MissingTags r) = JArray items).
Proof.
  intros (tags & Htags & Hmissing)%producer_sends.
  rewrite Hmissing, Htags, missingTags_filter. simpl. eauto 10.
Qed.

Lemma record_fields_allocated_witness :
  (∃ tags, Tags (bucketRecord []) = Map tags)
  ∧ (∃ missing, MissingTags (bucketRecord []) = Slice missing)
  ∧ (∃ fields, marshalTags (Tags (bucketRecord [])) = JObject fields)
  ∧ (∃ items, marshalStrings (MissingTags (bucketRecord [])) = JArray items).
Proof.
  apply (record_fields_allocated exampleAuditor [] "S3").
  apply list_elem_of_further, list_elem_of_further, list_elem_of_here.
Defined.

(** ** Failures *)

Lemma missingTags_empty (requiredTags : list string) : missingTags ∅ requiredTags = Slice requiredTags.
Proof.
  rewrite missingTags_filter. f_equal.
  induction requiredTags as [|t l IH]; [done|].
  rewrite filter_cons, decide_True by apply lookup_empty. by rewrite IH.
Qed.

(** When a failure is among the sends of the launched producers, the call
    returns, and what it returns is one of these failures, without a
    report. *)
Lemma audit_fails a services requiredTags e :
  SendError e ∈ concat (producer a requiredTags <$> services) →
  (∃ e', returns a services requiredTags (Err e'))
  ∧ (∀ res, returns a services requiredTags res →
       ∃ e', res = Err e' ∧ SendError e' ∈ concat (producer a requiredTags <$> services)).
Proof.
  intros He. split.
  - destruct (run_exists (AuditResources a services requiredTags)) as (s' & Hrun & Hnf).
    destruct (run_error _ _ _ _ _ He Hrun Hnf) as (e' & ps & calls & -> & _).
    exists e', ps, calls. done.
  - intros res (ps & calls & Hrun).
    destruct (run_error _ _ _ _ _ He Hrun (Returned_nf _ _ _)) as (e' & ? & ? & [= -> _ _] & He').
    eauto.
Qed.

(** C2.  When a launched provider has a failure to report, every run of
    [AuditResources] is finite and ends by returning a failure reported by
    a provider, and no report: what was collected until then is dropped.
    When the providers can report one failure only, it is the one
    returned. *)
Theorem error_discards_report a services requiredTags e :
  SendError e ∈ concat (producer a requiredTags <$> services) →
  sn step (AuditResources a services requiredTags)
  ∧ (∃ e', returns a services requiredTags (Err e'))
  ∧ (∀ res, returns a services requiredTags res →
       ∃ e', res = Err e' ∧ SendError e' ∈ concat (producer a requiredTags <$> services))
  ∧ ((∀ e', SendError e' ∈ concat (producer a requiredTags <$> services) → e' = e) →
     ∀ res, returns a services requiredTags res → res = Err e).
Proof.
  intros He. destruct (audit_fails _ _ _ _ He) as [Hex Hall].
  split; [apply step_sn|]. split; [done|]. split; [done|].
  intros Huniq res (e' & -> & He')%Hall. f_equal. by apply Huniq.
Qed.

Lemma error_discards_report_witness :
  sn step (AuditResources exampleAuditor ["s3"; "lambda"] ["owner"])
  ∧ (∃ e', returns exampleAuditor ["s3"; "lambda"] ["owner"] (Err e'))
  ∧ (∀ res, returns exampleAuditor ["s3"; "lambda"] ["owner"] res →
       ∃ e', res = Err e'
             ∧ SendError e' ∈ concat (producer exampleAuditor ["owner"] <$> ["s3"; "lambda"]))
  ∧ ((∀ e', SendError e' ∈ concat (producer exampleAuditor ["owner"] <$> ["s3"; "lambda"]) →
            e' = "failed to get tags for Lambda function resize: AccessDenied") →
     ∀ res, returns exampleAuditor ["s3"; "lambda"] ["owner"] res →
            res = Err "failed to get tags for Lambda function resize: AccessDenied").
Proof.
  apply (error_discards_report exampleAuditor ["s3"; "lambda"] ["owner"]).
  apply list_elem_of_In. vm_compute. tauto.
Defined.



(** ** Service identifiers *)

Lemma producer_unknown a requiredTags svc :
  ToLower svc ∉ knownServices → producer a requiredTags svc = [].
Proof.
  unfold knownServices. rewrite !not_elem_of_cons. intros (? & ? & ? & ? & _).
  unfold producer. by rewrite !decide_False.
Qed.

(** When no producer has anything to do, only [done] can fire. *)
Lemma run_idle ps report calls res ps' calls' :
  Forall (λ p, p = []) ps →
  rtc step (Collecting ps report calls) (Returned res ps' calls') →
  res = Ok report ∧ calls' = calls.
Proof.
  intros Hall Hrun.
  destruct (rtc_inv _ _ Hrun) as [?|(s1 & H1 & Hrest)]; [done|].
  inversion H1 as [? ? ? i ? ? Hi|? ? ? i ? ? Hi|? ? ? i ? ? Hi|]; subst;
    try (by apply (Forall_lookup_1 _ _ _ _ Hall) in Hi).
  apply rtc_nf in Hrest; [|apply Returned_nf]. by simplify_eq.
Qed.

Lemma producers_lower a requiredTags (services services' : list string) :
  ToLower <$> services = ToLower <$> services' →
  producer a requiredTags <$> services = producer a requiredTags <$> services'.
Proof.
  intros Heq.
  assert (∀ l : list string, producer a requiredTags <$> l
               = (λ s, if decide (s = "ec2") then auditEC2 a requiredTags
                       else if decide (s = "s3") then auditS3 a requiredTags
                       else if decide (s = "rds") then auditRDS a requiredTags
                       else if decide (s = "lambda") then auditLambda a requiredTags
                       else []) <$> (ToLower <$> l)) as Hvia.
  { intros l. by rewrite <- list_fmap_compose. }
  by rewrite !Hvia, Heq.
Qed.

Lemma producers_unknown a requiredTags services :
  Forall (λ svc, ToLower svc ∉ knownServices) services →
  producer a requiredTags <$> services = replicate (length services) [].
Proof.
  induction 1 as [|svc services Hsvc _ IH]; [done|].
  rewrite fmap_cons, IH, producer_unknown by done. done.
Qed.

(** C4, as stated, fails on "no task": [wg.Add(1)] and [go func] come
    before the [switch], so a goroutine is started for every identifier,
    known or not.  Two unknown identifiers give two goroutines. *)
Lemma unknown_service_gets_goroutine :
  launched (AuditResources exampleAuditor ["dynamodb"; "SQS"] ["owner"]) = [[]; []]
  ∧ length (launched (AuditResources exampleAuditor ["dynamodb"; "SQS"] ["owner"])) ≠ 0.
Proof. split; [reflexivity|]. simpl. lia. Qed.

(** C4 (amended).  [AuditResources] starts one goroutine for each requested
    identifier.  The identifier is compared in lower case, so two requests
    that differ only in the case of their identifiers start the same
    goroutines.  The goroutine of an identifier that is none of the four
    known ones runs no provider: it makes no request and sends neither a
    record nor an error.  When every requested identifier is unknown,
    every run of [AuditResources] returns, without a request to the cloud,
    and what it returns is the empty report and no error. *)
Theorem unknown_services_ignored a requiredTags :
  (∀ services,
     length (launched (AuditResources a services requiredTags)) = length services)
  ∧ (∀ services services' : list string,
       ToLower <$> services = ToLower <$> services' →
       AuditResources a services requiredTags = AuditResources a services' requiredTags)
  ∧ AuditResources a ["EC2"; "S3"; "Rds"; "LAMBDA"] requiredTags
    = Collecting [auditEC2 a requiredTags; auditS3 a requiredTags;
                  auditRDS a requiredTags; auditLambda a requiredTags]
                 {| Resources := SliceNil |} []
  ∧ (∀ services,
       Forall (λ svc, ToLower svc ∉ knownServices) services →
       AuditResources a services requiredTags
       = Collecting (replicate (length services) []) {| Resources := SliceNil |} []
       ∧ returns a services requiredTags (Ok {| Resources := SliceNil |})
       ∧ ∀ s, rtc step (AuditResources a services requiredTags) s → nf step s →
              s = Returned (Ok {| Resources := SliceNil |})
                           (replicate (length services) []) []).
Proof.
  split; [|split; [|split]].
  - intros services. simpl. by rewrite length_fmap.
  - intros services services' Heq. unfold AuditResources.
    by rewrite (producers_lower _ _ _ _ Heq).
  - done.
  - intros services Hunknown. unfold returns, AuditResources.
    rewrite (producers_unknown _ _ _ Hunknown).
    assert (Forall (λ p : list action, p = []) (replicate (length services) [])) as Hidle.
    { apply Forall_replicate. done. }
    split; [done|]. split.
    + eexists _, _. apply rtc_once. by apply step_done.
    + intros s Hrun Hnf. destruct (nf_Returned s Hnf) as (res & ps & calls & ->).
      destruct (rtc_inv _ _ Hrun) as [?|(s1 & H1 & Hrest)]; [done|].
      inversion H1 as [? ? ? i ? ? Hi|? ? ? i ? ? Hi|? ? ? i ? ? Hi|]; subst;
        try (by apply (Forall_lookup_1 _ _ _ _ Hidle) in Hi).
      apply rtc_nf in Hrest; [|apply Returned_nf]. by simplify_eq.
Qed.

Lemma unknown_services_ignored_witness :
  AuditResources exampleAuditor ["dynamodb"; "SQS"] ["owner"]
  = Collecting (replicate (length ["dynamodb"; "SQS"]) []) {| Resources := SliceNil |} []
  ∧ returns exampleAuditor ["dynamodb"; "SQS"] ["owner"] (Ok {| Resources := SliceNil |})
  ∧ ∀ s, rtc step (AuditResources exampleAuditor ["dynamodb"; "SQS"] ["owner"]) s → nf step s →
         s = Returned (Ok {| Resources := SliceNil |})
                      (replicate (length ["dynamodb"; "SQS"]) []) [].
Proof.
  apply (unknown_services_ignored exampleAuditor ["owner"]).
  repeat constructor; apply (bool_decide_unpack _); by vm_compute.
Defined.

(** ** Producers at the return *)

(** When a report is returned, every producer has run to its end. *)
Lemma report_no_leak a services requiredTags report ps calls :
  rtc step (AuditResources a services requiredTags) (Returned (Ok report) ps calls) →
  leaked ps = [].
Proof.
  intros [Hall _]%run_report. induction Hall as [|p ps -> _ IH]; [done|].
  unfold leaked in *. rewrite filter_cons. by case_decide.
Qed.

(** The Lambda audit of the example can only end in one way. *)
Lemma lambda_example_run s' :
  rtc step (AuditResources exampleAuditor ["lambda"] ["owner"]) s' →
  nf step s' →
  s' = Returned (Err "failed to get tags for Lambda function resize: AccessDenied")
                [stuckProducer]
                [ListFunctions; ListTags "arn:aws:lambda:eu-west-1:1:function:resize"].
Proof. intros Hrun Hnf. by rewrite (runSingle_only _ _ _ _ Hrun Hnf). Qed.

(** C5 fails on the error path.  Auditing Lambda when the tags of two
    functions cannot be read, [AuditResources] returns at the first failure
    while the producer still has a send to make: nothing will receive it,
    and the goroutine stays blocked. *)
Theorem producer_left_blocked :
  rtc step (AuditResources exampleAuditor ["lambda"] ["owner"])
      (Returned (Err "failed to get tags for Lambda function resize: AccessDenied")
                [stuckProducer]
                [ListFunctions; ListTags "arn:aws:lambda:eu-west-1:1:function:resize"])
  ∧ leaked [stuckProducer] = [stuckProducer].
Proof.
  split; [|done].
  exact (runSingle_run (auditLambda exampleAuditor ["owner"]) {| Resources := SliceNil |} []).
Qed.

(** ** Configuration errors *)

(** The EC2 audit of the example can only end in one way. *)
Lemma ec2_example_run requiredTags :
  rtc step (AuditResources exampleAuditor ["ec2"] requiredTags)
      (Returned (Ok {| Resources := Slice [{| ServiceName := "EC2";
                                              ResourceID := "i-1234567890abcdef0";
                                              ResourceType := "Instance";
                                              Tags := Map exampleTags;
                                              MissingTags := missingTags exampleTags requiredTags |}] |})
                [[]] [DescribeInstances]).
Proof.
  unfold AuditResources. rewrite fmap_cons, fmap_nil, exampleAuditor_ec2.
  exact (runSingle_run [Call DescribeInstances; SendResource _] {| Resources := SliceNil |} []).
Qed.

(** C6, as stated, fails for the output format: [audit -t owner -s ec2 -o xml]
    is refused for its format only once the EC2 provider has been asked
    for the instances. *)
Lemma unknown_format_after_providers :
  ¬ ∀ out calls,
      runAudit jsonExample exampleAuditor ["ec2"] ["owner"] "xml" terminal out calls → calls = [].
Proof.
  intros Hclaim.
  assert (runAudit jsonExample exampleAuditor ["ec2"] ["owner"] "xml" terminal
            (terminal, Some "unsupported output format: xml") [DescribeInstances]) as Hrun.
  { eexists _, _. split; [apply ec2_example_run|]. done. }
  by apply Hclaim in Hrun.
Qed.

(** The Lambda audit of the example, its one run. *)
Lemma lambda_example_fails requiredTags :
  rtc step (AuditResources exampleAuditor ["lambda"] requiredTags)
      (Returned (Err "failed to get tags for Lambda function resize: AccessDenied")
                [stuckProducer]
                [ListFunctions; ListTags "arn:aws:lambda:eu-west-1:1:function:resize"]).
Proof. exact (runSingle_run (auditLambda exampleAuditor requiredTags) {| Resources := SliceNil |} []). Qed.

(** C6 (amended).  An output format that is none of text, json and csv is
    looked at only after [AuditResources] has returned.  When the audit
    succeeded, every launched provider has made all its requests by then,
    and [runAudit] prints nothing and returns [unsupported output format];
    when the audit failed, [runAudit] returns the failure of the audit
    instead, behind [failed to audit resources].  Either way the process
    exits with status 1.  A missing [required-tags] flag ends the process
    with a non-zero status, or kills it, before any provider runs. *)
Theorem configuration_errors (jsonEncode : json → string) :
  (∀ (W : Type) (HW : Writer W) a services requiredTags outputFormat (stdout : W) out calls,
     outputFormat ∉ ["json"; "csv"; "text"] →
     runAudit jsonEncode a services requiredTags outputFormat stdout out calls →
     (∃ report ps,
        rtc step (AuditResources a services requiredTags) (Returned (Ok report) ps calls)
        ∧ out = (stdout, Some ("unsupported output format: " +:+ outputFormat))
        ∧ (Call <$> calls) ++ (SendResource <$> elems (Resources report))
          ≡ₚ concat (producer a requiredTags <$> services))
     ∨ (∃ e ps,
          rtc step (AuditResources a services requiredTags) (Returned (Err e) ps calls)
          ∧ out = (stdout, Some ("failed to audit resources: " +:+ e))
          ∧ SendError e ∈ concat (producer a requiredTags <$> services)))
  ∧ (∀ a args requiredTags outputFormat stdout ends stdout' calls,
       required_tags args = Some requiredTags →
       output args = Some outputFormat →
       outputFormat ∉ ["json"; "csv"; "text"] →
       sigpipe stdout = false →
       main jsonEncode (Ok a) args stdout ends stdout' calls →
       ends = Exited 1 ∧ stdout' = stdout)
  ∧ (∀ newAuditor args stdout ends stdout' calls,
       required_tags args = None →
       main jsonEncode newAuditor args stdout ends stdout' calls →
       calls = [] ∧ ends ≠ Exited 0).
Proof.
  assert (∀ (W : Type) (HW : Writer W) a services requiredTags outputFormat (stdout : W) out calls,
     outputFormat ∉ ["json"; "csv"; "text"] →
     runAudit jsonEncode a services requiredTags outputFormat stdout out calls →
     (∃ report ps,
        rtc step (AuditResources a services requiredTags) (Returned (Ok report) ps calls)
        ∧ out = (stdout, Some ("unsupported output format: " +:+ outputFormat))
        ∧ (Call <$> calls) ++ (SendResource <$> elems (Resources report))
          ≡ₚ concat (producer a requiredTags <$> services))
     ∨ (∃ e ps,
          rtc step (AuditResources a services requiredTags) (Returned (Err e) ps calls)
          ∧ out = (stdout, Some ("failed to audit resources: " +:+ e))
          ∧ SendError e ∈ concat (producer a requiredTags <$> services))) as Hrun.
  { intros W HW a services requiredTags outputFormat stdout out calls Hformat
           (res & ps & Hrun & Hout).
    rewrite !not_elem_of_cons in Hformat. destruct Hformat as (? & ? & ? & _).
    destruct res as [report|e].
    - left. rewrite !decide_False in Hout by done. exists report, ps.
      split; [done|]. split; [done|]. by apply run_report in Hrun as [_ ?].
    - right. exists e, ps. split; [done|]. split; [done|].
      by apply run_returned_error in Hrun. }
  split; [exact Hrun|]. split.
  - intros a args requiredTags outputFormat stdout ends stdout' calls Htags Hout Hformat Hsig.
    unfold main. rewrite Htags, Hout. simpl. intros (code & (err & Haudit & ->) & ->).
    destruct (Hrun _ _ _ _ _ _ _ _ _ Hformat Haudit)
      as [(? & ? & _ & [= -> ->] & _)|(? & ? & _ & [= -> ->] & _)]; by rewrite Hsig.
  - intros newAuditor args stdout ends stdout' calls Hnone.
    unfold main. rewrite Hnone. intros (code & (_ & -> & ->) & ->).
    split; [done|]. by destruct (sigpipe stdout').
Qed.

Lemma configuration_errors_witness :
  ((∃ report ps,
      rtc step (AuditResources exampleAuditor ["ec2"] ["owner"])
          (Returned (Ok report) ps [DescribeInstances])
      ∧ (terminal, Some "unsupported output format: xml")
        = (terminal, Some ("unsupported output format: " +:+ "xml"))
      ∧ (Call <$> [DescribeInstances]) ++ (SendResource <$> elems (Resources report))
        ≡ₚ concat (producer exampleAuditor ["owner"] <$> ["ec2"]))
   ∨ (∃ e ps,
        rtc step (AuditResources exampleAuditor ["ec2"] ["owner"])
            (Returned (Err e) ps [DescribeInstances])
        ∧ (terminal, Some "unsupported output format: xml")
          = (terminal, Some ("failed to audit resources: " +:+ e))
        ∧ SendError e ∈ concat (producer exampleAuditor ["owner"] <$> ["ec2"])))
  ∧ ((∃ report ps,
        rtc step (AuditResources exampleAuditor ["lambda"] ["owner"])
            (Returned (Ok report) ps
               [ListFunctions; ListTags "arn:aws:lambda:eu-west-1:1:function:resize"])
        ∧ (terminal, Some ("failed to audit resources: "
                           +:+ "failed to get tags for Lambda function resize: AccessDenied"))
          = (terminal, Some ("unsupported output format: " +:+ "xml"))
        ∧ (Call <$> [ListFunctions; ListTags "arn:aws:lambda:eu-west-1:1:function:resize"])
            ++ (SendResource <$> elems (Resources report))
          ≡ₚ concat (producer exampleAuditor ["owner"] <$> ["lambda"]))
     ∨ (∃ e ps,
          rtc step (AuditResources exampleAuditor ["lambda"] ["owner"])
              (Returned (Err e) ps
                 [ListFunctions; ListTags "arn:aws:lambda:eu-west-1:1:function:resize"])
          ∧ (terminal, Some ("failed to audit resources: "
                             +:+ "failed to get tags for Lambda function resize: AccessDenied"))
            = (terminal, Some ("failed to audit resources: " +:+ e))
          ∧ SendError e ∈ concat (producer exampleAuditor ["owner"] <$> ["lambda"])))
  ∧ (Exited 1 = Exited 1 ∧ console = console)
  ∧ (@nil api = [] ∧ Exited 1 ≠ Exited 0).
Proof.
  destruct (configuration_errors jsonExample) as (Hrun & Hmain & Hflag).
  split; [|split; [|split]].
  - apply (Hrun stream _ exampleAuditor ["ec2"] ["owner"] "xml" terminal).
    + apply (bool_decide_unpack _). by vm_compute.
    + eexists _, _. split; [apply ec2_example_run|]. done.
  - apply (Hrun stream _ exampleAuditor ["lambda"] ["owner"] "xml" terminal).
    + apply (bool_decide_unpack _). by vm_compute.
    + eexists _, _. split; [apply lambda_example_fails|]. done.
  - apply (Hmain exampleAuditor xmlFlags ["owner"] "xml" console (Exited 1) console
             [DescribeInstances]); [done|done| |done|].
    + apply (bool_decide_unpack _). by vm_compute.
    + exists 1. split; [|done]. exists (Some "unsupported output format: xml").
      split; [|done]. eexists _, _. split; [apply ec2_example_run|]. done.
  - eapply (Hflag (Ok exampleAuditor) bareFlags console (Exited 1) _ []); [done|].
    exists 1. split; [split; [reflexivity|done]|done].
Defined.

(** ** The CSV presenter *)

Lemma string_app_assoc (s1 s2 s3 : string) : (s1 +:+ s2) +:+ s3 = s1 +:+ s2 +:+ s3.
Proof. induction s1 as [|c s1 IH]; [done|]. exact (f_equal (String c) IH). Qed.

Lemma string_app_nil_r (s : string) : s +:+ EmptyString = s.
Proof. induction s as [|c s IH]; [done|]. exact (f_equal (String c) IH). Qed.

Lemma substring_all (s : string) : String.substring 0 (String.length s) s = s.
Proof. induction s as [|c s IH]; [done|]. simpl. by rewrite IH. Qed.

Lemma substring_split (n : nat) (s : string) :
  n ≤ String.length s →
  String.substring 0 n s +:+ String.substring n (String.length s - n) s = s.
Proof.
  revert s. induction n as [|n IH]; intros s Hn.
  - rewrite Nat.sub_0_r, substring_all. by destruct s.
  - destruct s as [|c s]; simpl in *; [lia|].
    exact (f_equal (String c) (IH s ltac:(lia))).
Qed.

Lemma bufio_direct_healthy b s :
  healthy b →
  ∃ b', bufio_direct b s = (b', None) ∧ healthy b'
        ∧ written (wr b') = written (wr b) +:+ s ∧ buf b' = buf b.
Proof.
  intros [Herr Hok]. unfold bufio_direct, Write, stream_Writer. rewrite Hok.
  eexists. split; [done|]. by repeat split.
Qed.

Lemma bufio_Flush_healthy b :
  healthy b →
  ∃ b', bufio_Flush b = (b', None) ∧ healthy b'
        ∧ written (wr b') = flushed b ∧ buf b' = EmptyString.
Proof.
  intros [Herr Hok]. unfold bufio_Flush, flushed. rewrite Herr. case_decide as Hbuf.
  - exists b. rewrite Hbuf, string_app_nil_r. by repeat split.
  - unfold Write, stream_Writer. rewrite Hok. eexists. split; [done|]. by repeat split.
Qed.

Lemma bufio_WriteString_healthy b s :
  healthy b →
  ∃ b', bufio_WriteString b s = (b', None) ∧ healthy b' ∧ flushed b' = flushed b +:+ s.
Proof.
  intros Hb. pose proof Hb as [Herr Hok]. unfold bufio_WriteString. rewrite Herr.
  destruct (String.length s <=? bufio_Available b)%nat eqn:Hfits.
  { eexists. split; [done|]. split; [done|]. unfold flushed. simpl.
    by rewrite string_app_assoc. }
  apply Nat.leb_gt in Hfits. case_decide as Hbuf.
  { destruct (bufio_direct_healthy b s Hb) as (b' & -> & Hb' & Hw & Hbuf').
    exists b'. split; [done|]. split; [done|]. unfold flushed.
    by rewrite Hw, Hbuf', Hbuf, !string_app_nil_r. }
  set (n := bufio_Available b) in *.
  set (filled := {| wr := wr b; buf := buf b +:+ String.substring 0 n s; werr := None |}).
  destruct (bufio_Flush_healthy filled) as (b1 & -> & Hb1 & Hw1 & Hbuf1); [done|].
  assert (flushed b +:+ s
          = written (wr b1) +:+ String.substring n (String.length s - n) s) as Htext.
  { rewrite Hw1. unfold flushed, filled. simpl.
    rewrite <- (substring_split n s) at 1 by lia. by rewrite !string_app_assoc. }
  destruct (String.length (String.substring n (String.length s - n) s) <=? bufio_size)%nat.
  - eexists. split; [done|]. split; [by destruct Hb1|]. by rewrite Htext.
  - destruct (bufio_direct_healthy b1 (String.substring n (String.length s - n) s) Hb1)
      as (b' & -> & Hb' & Hw & Hbuf').
    exists b'. split; [done|]. split; [done|]. rewrite Htext. unfold flushed.
    by rewrite Hw, Hbuf', Hbuf1, string_app_nil_r.
Qed.

Lemma bufio_writeAll_healthy b chunks :
  healthy b →
  ∃ b', bufio_writeAll b chunks = (b', None) ∧ healthy b'
        ∧ flushed b' = flushed b +:+ foldr String.append EmptyString chunks.
Proof.
  revert b. induction chunks as [|s chunks IH]; intros b Hb; simpl.
  - exists b. by rewrite string_app_nil_r.
  - destruct (bufio_WriteString_healthy b s Hb) as (b1 & -> & Hb1 & Htext1).
    destruct (IH b1 Hb1) as (b' & -> & Hb' & Htext).
    exists b'. split; [done|]. split; [done|].
    by rewrite Htext, Htext1, string_app_assoc.
Qed.

Lemma writeRows_healthy visits resources b :
  healthy b →
  ∃ b', writeRows visits resources b = (b', None) ∧ healthy b'
        ∧ flushed b' = flushed b
                       +:+ foldr String.append EmptyString (csvLine <$> csvRows visits resources).
Proof.
  revert visits b. induction resources as [|resource resources IH]; intros visits b Hb; simpl.
  - exists b. by rewrite string_app_nil_r.
  - unfold csv_Write.
    destruct (bufio_writeAll_healthy b (recordChunks
                (csvRow resource (default (map_to_list (entries (Tags resource))) (head visits)))) Hb)
      as (b1 & -> & Hb1 & Htext1).
    destruct (IH (tail visits) b1 Hb1) as (b' & -> & Hb' & Htext).
    exists b'. split; [done|]. split; [done|].
    by rewrite Htext, Htext1, string_app_assoc.
Qed.

(** On a stream that takes everything, the CSV presenter returns no error
    and has written the header line and then one line for each resource. *)
Lemma OutputCSV_healthy visits r text :
  OutputCSV visits r {| written := text; broken := None |}
  = ({| written := text +:+ csvText visits r; broken := None |}, None).
Proof.
  unfold OutputCSV, csv_Write, csvText.
  set (b := csv_NewWriter {| written := text; broken := None |}).
  assert (healthy b) as Hb by done.
  destruct (bufio_writeAll_healthy b (recordChunks header) Hb) as (b1 & -> & Hb1 & Htext1).
  destruct (writeRows_healthy visits (elems (Resources r)) b1 Hb1) as (b2 & -> & Hb2 & Htext2).
  destruct (bufio_Flush_healthy b2 Hb2) as (b3 & -> & [_ Hok] & Hw & _).
  simpl. f_equal. destruct (wr b3) as [w o]. simpl in *. subst.
  rewrite Htext2, Htext1. unfold flushed, b. simpl.
  by rewrite string_app_nil_r, string_app_assoc.
Qed.

Lemma csvLine_plain_from (field : string) (fields : list string) :
  Forall (λ f, fieldNeedsQuotes f = false) fields →
  foldr String.append EmptyString ([field] ++ (fields ≫= λ f, "," :: fieldChunks f) ++ [nl])
  = String.concat "," (field :: fields) +:+ nl.
Proof.
  revert field. induction fields as [|g fields IH]; intros field Hplain.
  - simpl. by rewrite string_app_nil_r.
  - apply Forall_cons in Hplain as [Hg Hplain].
    specialize (IH g Hplain). cbn -[String.concat] in IH |- *.
    unfold fieldChunks at 1. rewrite Hg. cbn -[String.concat].
    rewrite IH. change (String.concat "," (field :: g :: fields))
      with (field +:+ "," +:+ String.concat "," (g :: fields)).
    by rewrite !string_app_assoc.
Qed.

(** A record none of whose fields needs quotes is written as its fields
    separated by commas. *)
Lemma csvLine_plain (record : list string) :
  Forall (λ f, fieldNeedsQuotes f = false) record →
  csvLine record = String.concat "," record +:+ nl.
Proof.
  destruct record as [|field fields]; [done|].
  intros [Hfield Hfields]%Forall_cons. unfold csvLine, recordChunks, fieldChunks at 1.
  rewrite Hfield. by apply csvLine_plain_from.
Qed.

Lemma exampleTags_list : map_to_list exampleTags = environmentFirst.
Proof. by vm_compute. Qed.

Lemma nameFirst_order : rangeOrders exampleReport [nameFirst].
Proof.
  constructor; [|constructor]. simpl. rewrite exampleTags_list. apply perm_swap.
Qed.

Lemma environmentFirst_order : rangeOrders exampleReport [environmentFirst].
Proof. constructor; [|constructor]. simpl. by rewrite exampleTags_list. Qed.

(** Whatever the order of the visit, the row of the README is not what is
    written. *)
Lemma csv_row_unquoted visits :
  rangeOrders exampleReport visits →
  written (OutputCSV visits exampleReport terminal).1 ≠ csvHeaderLine +:+ quotedRow.
Proof.
  intros Horders. inversion Horders as [|? visit ? rest Hvisit Hrest]; subst.
  inversion Hrest; subst. simpl in Hvisit. rewrite exampleTags_list in Hvisit.
  symmetry in Hvisit. apply Permutation_length_2_inv in Hvisit as [->| ->]; by vm_compute.
Qed.

(** C7, as stated, fails on the example row: [csv.Writer] quotes a field
    only when it has to, and neither [Name:webserver; environment:production]
    nor [project; owner] holds a comma, a quote or a line break. *)
Lemma csv_row_not_quoted :
  rangeOrders exampleReport [nameFirst]
  ∧ written (OutputCSV [nameFirst] exampleReport terminal).1 ≠ csvHeaderLine +:+ quotedRow.
Proof. split; [apply nameFirst_order|]. apply csv_row_unquoted, nameFirst_order. Qed.

Lemma csvRows_length visits resources : length (csvRows visits resources) = length resources.
Proof.
  revert visits. induction resources as [|resource l IH]; intros visits; [done|].
  simpl. by rewrite IH.
Qed.

(** C7 (amended).  On a stream that takes everything, the CSV presenter
    returns no error and writes the header row followed by one row for each
    resource, in the order of the report; the tags field of a row is the
    [key:value] pairs joined by ["; "], in the order in which the map is
    visited, and the missing-tags field is the missing tags joined by
    ["; "].  For the example, with [Name] visited first, the row is
    [EC2,i-1234567890abcdef0,Instance,Name:webserver; environment:production,project; owner],
    without quotes. *)
Theorem csv_output :
  (∀ visits r text,
     OutputCSV visits r {| written := text; broken := None |}
     = ({| written := text +:+ csvText visits r; broken := None |}, None))
  ∧ (∀ visits r,
       csvText visits r
       = csvHeaderLine
         +:+ foldr String.append EmptyString (csvLine <$> csvRows visits (elems (Resources r)))
       ∧ length (csvRows visits (elems (Resources r))) = length (elems (Resources r)))
  ∧ (∀ resource visit,
       csvRow resource visit
       = [ServiceName resource; ResourceID resource; ResourceType resource;
          String.concat "; " ((λ kv, kv.1 +:+ ":" +:+ kv.2) <$> visit);
          String.concat "; " (elems (MissingTags resource))])
  ∧ OutputCSV [nameFirst] exampleReport terminal
    = ({| written :=
            csvHeaderLine
            +:+ "EC2,i-1234567890abcdef0,Instance,Name:webserver; environment:production,project; owner"
            +:+ nl;
          broken := None |}, None).
Proof.
  split; [apply OutputCSV_healthy|]. split; [|split; [done|by vm_compute]].
  intros visits r. split; [|apply csvRows_length].
  unfold csvText. rewrite fmap_cons. simpl foldr. f_equal.
Qed.

(** C8 fails for CSV.  The tags column is filled by ranging over a Go map,
    and the order of that loop is not fixed: the same report, written twice
    to the same stream, can give two different texts. *)
Theorem csv_rendering_varies :
  rangeOrders exampleReport [nameFirst]
  ∧ rangeOrders exampleReport [environmentFirst]
  ∧ OutputCSV [nameFirst] exampleReport terminal
    ≠ OutputCSV [environmentFirst] exampleReport terminal.
Proof.
  split; [apply nameFirst_order|]. split; [apply environmentFirst_order|]. by vm_compute.
Qed.

(** ** Write failures *)

Lemma Write_broken (w : stream) e p : broken w = Some e → Write w p = (w, Some e).
Proof. intros Hw. unfold Write, stream_Writer. by rewrite Hw. Qed.

Lemma textBlock_broken (w : stream) e resource : broken w = Some e → textBlock w resource = w.
Proof.
  intros Hw. unfold textBlock, Fprintf, Fprintln. cbv zeta.
  repeat (rewrite (Write_broken w e) by done; cbn [fst]).
  destruct (0 <? _)%nat; repeat (rewrite (Write_broken w e) by done; cbn [fst]); done.
Qed.

(** The text presenter returns [nil] whatever happens to its writes. *)
Lemma OutputText_broken (w : stream) e r : broken w = Some e → OutputText r w = (w, None).
Proof.
  intros Hw. unfold OutputText, Fprintln. cbv zeta.
  repeat (rewrite (Write_broken w e) by done; cbn [fst]). f_equal.
  induction (elems (Resources r)) as [|resource l IH]; [done|].
  simpl. by rewrite (textBlock_broken _ e).
Qed.

(** The JSON presenter returns the failure of its one [Write]. *)
Lemma OutputJSON_broken jsonEncode (w : stream) e r :
  broken w = Some e → OutputJSON jsonEncode r w = (w, Some e).
Proof. intros Hw. unfold OutputJSON. by apply Write_broken. Qed.

Lemma Write_failing (f : fd) e p : state f = Failing e → Write f p = (f, Some e).
Proof. intros Hf. unfold Write, fd_Writer. by rewrite Hf. Qed.

Lemma textBlock_failing (f : fd) e resource : state f = Failing e → textBlock f resource = f.
Proof.
  intros Hf. unfold textBlock, Fprintf, Fprintln. cbv zeta.
  repeat (rewrite (Write_failing f e) by done; cbn [fst]).
  destruct (0 <? _)%nat; repeat (rewrite (Write_failing f e) by done; cbn [fst]); done.
Qed.

Lemma OutputText_failing (f : fd) e r : state f = Failing e → OutputText r f = (f, None).
Proof.
  intros Hf. unfold OutputText, Fprintln. cbv zeta.
  repeat (rewrite (Write_failing f e) by done; cbn [fst]). f_equal.
  induction (elems (Resources r)) as [|resource l IH]; [done|].
  simpl. by rewrite (textBlock_failing _ e).
Qed.

(** C9 fails for text, and for CSV when the output fits the buffer.  With
    standard output on a full device, every write failing with an error,
    [OutputText] returns [nil] and the process exits with status 0 having
    printed nothing; [OutputCSV] returns [nil] as well, the failure of the
    deferred [Flush] being dropped.  Only [OutputJSON] returns the
    failure. *)
Theorem text_write_failure_unreported :
  OutputText exampleReport fullDisk = (fullDisk, None)
  ∧ main jsonExample (Ok exampleAuditor) textFlags fullDisk (Exited 0) fullDisk
         [DescribeInstances]
  ∧ OutputCSV [nameFirst] exampleReport fullDisk = (fullDisk, None)
  ∧ OutputJSON jsonExample exampleReport fullDisk
    = (fullDisk, Some "write /dev/stdout: no space left on device").
Proof.
  split; [by apply (OutputText_failing _ "write /dev/stdout: no space left on device")|].
  split; [|split; [by vm_compute|done]].
  exists 0. split; [|done]. exists None. split; [|done].
  eexists _, _. split; [apply ec2_example_run|].
  simpl. symmetry.
  by apply (OutputText_failing _ "write /dev/stdout: no space left on device").
Qed.

(** * Further properties of the auditor *)

(** ** The collecting loop *)

(** Provided every request to the cloud is answered, as an [Auditor] has
    it (the loop has no case for a cancelled context and waits for ever on
    a provider whose SDK call does not return), the collecting loop neither
    deadlocks nor runs for ever: every run of [AuditResources] is finite, a
    state from which nothing can happen is a return, and some return is
    reachable. *)
Theorem audit_always_returns a services requiredTags :
  sn step (AuditResources a services requiredTags)
  ∧ (∀ s, rtc step (AuditResources a services requiredTags) s → nf step s →
          ∃ res ps calls, s = Returned res ps calls)
  ∧ (∃ res, returns a services requiredTags res).
Proof.
  split; [apply step_sn|]. split.
  - intros s _ Hnf. by apply nf_Returned.
  - destruct (run_exists (AuditResources a services requiredTags)) as (s & Hrun & Hnf).
    destruct (nf_Returned s Hnf) as (res & ps & calls & ->).
    exists res, ps, calls. done.
Qed.

(** When no launched provider has a failure to send, the audit succeeds:
    a report is returned, and never an error. *)
Theorem audit_succeeds_without_failures a services requiredTags :
  (∀ e, SendError e ∉ concat (producer a requiredTags <$> services)) →
  (∃ report, returns a services requiredTags (Ok report))
  ∧ (∀ res, returns a services requiredTags res → ∃ report, res = Ok report).
Proof.
  intros Hnone.
  assert (∀ res, returns a services requiredTags res → ∃ report, res = Ok report) as Hall.
  { intros [report|e] (ps & calls & Hrun); [by eauto|].
    apply run_returned_error in Hrun. by apply Hnone in Hrun. }
  split; [|done].
  destruct (run_exists (AuditResources a services requiredTags)) as (s & Hrun & Hnf).
  destruct (nf_Returned s Hnf) as (res & ps & calls & ->).
  destruct (Hall res) as [report ->]; [by exists ps, calls|].
  by exists report, ps, calls.
Qed.

Lemma audit_succeeds_without_failures_witness :
  (∃ report, returns exampleAuditor ["ec2"; "rds"] ["owner"] (Ok report))
  ∧ (∀ res, returns exampleAuditor ["ec2"; "rds"] ["owner"] res → ∃ report, res = Ok report).
Proof.
  apply (audit_succeeds_without_failures exampleAuditor ["ec2"; "rds"] ["owner"]).
  intros e He. apply list_elem_of_In in He. vm_compute in He.
  repeat (destruct He as [He|He]; [discriminate He|]). exact He.
Defined.

(** ** Order and content of a report *)

Lemma records_insert (ps : list (list action)) i rest :
  records <$> <[i := rest]> ps = <[i := records rest]> (records <$> ps).
Proof. apply list_fmap_insert. Qed.

Lemma run_interleave ps report calls report' ps' calls' :
  rtc step (Collecting ps report calls) (Returned (Ok report') ps' calls') →
  ∃ l, interleave (records <$> ps) l
       ∧ Resources report' = match l with
                             | [] => Resources report
                             | _ => Slice (elems (Resources report) ++ l)
                             end.
Proof.
  intros Hrun. remember (Collecting ps report calls) as s eqn:Hs.
  remember (Returned (Ok report') ps' calls') as s' eqn:Hs'.
  revert ps report calls Hs.
  induction Hrun as [s|s s1 s' H1 Hrun IH]; intros ps report calls ->; [by subst|].
  specialize (IH Hs').
  inversion H1 as [? ? ? i c rest Hi|? ? ? i r rest Hi|? ? ? i err rest Hi|? ? ? Hall]; subst.
  - destruct (IH _ _ _ eq_refl) as (l & Hl & Hrep). exists l. split; [|done].
    rewrite records_insert, list_insert_id in Hl; [done|].
    by rewrite list_lookup_fmap, Hi.
  - destruct (IH _ _ _ eq_refl) as (l & Hl & Hrep). exists (r :: l). split.
    + eapply (interleave_next _ i r (records rest)).
      * by rewrite list_lookup_fmap, Hi.
      * by rewrite <- records_insert.
    + rewrite Hrep. simpl. destruct l; [done|]. by rewrite <- app_assoc.
  - apply rtc_nf in Hrun; [done|apply Returned_nf].
  - apply rtc_nf in Hrun; [|apply Returned_nf]. simplify_eq.
    exists []. split; [|done]. constructor.
    apply Forall_fmap. eapply Forall_impl; [done|]. by intros p ->.
Qed.

Lemma interleave_Permutation {A} (ls : list (list A)) l : interleave ls l → l ≡ₚ concat ls.
Proof.
  induction 1 as [ls Hall|ls i x rest l Hi _ IH].
  - apply concat_nil_Forall in Hall. by rewrite Hall.
  - rewrite IH. rewrite <- (take_drop_middle ls i _ Hi) at 2.
    rewrite insert_take_drop by (by eapply lookup_lt_Some).
    rewrite !concat_app, !concat_cons. simpl. by rewrite <- Permutation_middle.
Qed.

Lemma interleave_sublist {A} (ls : list (list A)) l j l0 :
  interleave ls l → ls !! j = Some l0 → sublist l0 l.
Proof.
  intros Hl. revert j l0. induction Hl as [ls Hall|ls i x rest l Hi _ IH]; intros j l0 Hj.
  - rewrite (Forall_lookup_1 _ _ _ _ Hall Hj). constructor.
  - destruct (decide (i = j)) as [->|Hne].
    + simplify_eq. apply sublist_skip, (IH j).
      apply list_lookup_insert_eq. by eapply lookup_lt_Some.
    + apply sublist_cons, (IH j). by rewrite list_lookup_insert_ne.
Qed.

Lemma interleave_single {A} (l0 l : list A) : interleave [l0] l → l = l0.
Proof.
  intros Hl. remember [l0] as ls eqn:Hls. revert l0 Hls.
  induction Hl as [ls Hall|ls i x rest l Hi _ IH]; intros l0 ->.
  - by inversion Hall.
  - destruct i as [|i]; [|by destruct i]. simplify_eq/=. f_equal. by apply IH.
Qed.

(** A returned report is a merge of what the producers sent: it holds
    every record sent and nothing else, and the records of one provider
    keep the order in which that provider sent them. *)
Theorem report_interleaves_records a services requiredTags report :
  returns a services requiredTags (Ok report) →
  interleave (records <$> (producer a requiredTags <$> services)) (elems (Resources report))
  ∧ elems (Resources report) ≡ₚ concat (records <$> (producer a requiredTags <$> services))
  ∧ (∀ svc, svc ∈ services →
            sublist (records (producer a requiredTags svc)) (elems (Resources report))).
Proof.
  intros (ps & calls & Hrun).
  apply run_interleave in Hrun as (l & Hl & Hrep). simpl in Hrep.
  assert (elems (Resources report) = l) as -> by (rewrite Hrep; by destruct l).
  split; [done|]. split; [by apply interleave_Permutation|].
  intros svc Hsvc. apply list_elem_of_lookup in Hsvc as [j Hj].
  apply (interleave_sublist _ _ j _ Hl). by rewrite !list_lookup_fmap, Hj.
Qed.

Lemma returned_interleave a services requiredTags report :
  returns a services requiredTags (Ok report) →
  interleave (records <$> (producer a requiredTags <$> services)) (elems (Resources report))
  ∧ Resources report = match elems (Resources report) with
                       | [] => SliceNil
                       | l => Slice l
                       end.
Proof.
  intros (ps & calls & Hrun).
  apply run_interleave in Hrun as (l & Hl & Hrep). simpl in Hrep.
  rewrite Hrep. by destruct l.
Qed.

(** The EC2 and RDS audit of the example, one of its runs. *)
Lemma ec2_rds_example_run requiredTags :
  rtc step (AuditResources exampleAuditor ["ec2"; "rds"] requiredTags)
      (Returned (Ok {| Resources := Slice [{| ServiceName := "EC2";
                                              ResourceID := "i-1234567890abcdef0";
                                              ResourceType := "Instance";
                                              Tags := Map exampleTags;
                                              MissingTags := missingTags exampleTags requiredTags |}] |})
                [[]; []] [DescribeInstances; DescribeDBInstances]).
Proof.
  unfold AuditResources. rewrite !fmap_cons, fmap_nil, exampleAuditor_ec2.
  change (producer exampleAuditor requiredTags "rds") with [Call DescribeDBInstances].
  eapply rtc_l; [by apply (step_call _ _ _ 0)|]. cbn [insert list_insert app].
  eapply rtc_l; [by apply (step_resource _ _ _ 0)|]. cbn [insert list_insert app].
  eapply rtc_l; [by apply (step_call _ _ _ 1)|]. cbn [insert list_insert app].
  apply rtc_once, step_done. by repeat constructor.
Qed.

Lemma rds_example_run requiredTags :
  rtc step (AuditResources exampleAuditor ["rds"] requiredTags)
      (Returned (Ok {| Resources := SliceNil |}) [[]] [DescribeDBInstances]).
Proof. exact (runSingle_run [Call DescribeDBInstances] {| Resources := SliceNil |} []). Qed.

Lemma ec2_example_returns :
  returns exampleAuditor ["ec2"] ["environment"; "project"; "owner"] (Ok exampleReport).
Proof. eexists _, _. exact (ec2_example_run ["environment"; "project"; "owner"]). Qed.

Lemma ec2_rds_example_returns :
  returns exampleAuditor ["ec2"; "rds"] ["environment"; "project"; "owner"] (Ok exampleReport).
Proof. eexists _, _. exact (ec2_rds_example_run ["environment"; "project"; "owner"]). Qed.

Lemma rds_example_returns requiredTags :
  returns exampleAuditor ["rds"] requiredTags (Ok {| Resources := SliceNil |}).
Proof. eexists _, _. apply rds_example_run. Qed.

Lemma schedule_run order s : rtc step s (schedule order s).
Proof.
  revert s. induction order as [|i order IH]; intros [ps report calls|res ps calls]; simpl;
    try done.
  - destruct (forallb _ ps) eqn:Hall; [|done].
    apply rtc_once, step_done. apply Forall_forall. intros p Hp.
    rewrite forallb_forall in Hall. apply list_elem_of_In, Hall in Hp. by destruct p.
  - destruct (ps !! i) as [[|[c|r|err] rest]|] eqn:Hi; try done.
    + eapply rtc_l; [by apply step_call|]. apply IH.
    + eapply rtc_l; [by apply step_resource|]. apply IH.
    + apply rtc_once. by apply step_error.
Qed.

(** Three audits of the fleet with [-t owner,team]. *)
Lemma fleet_ec2_returns : returns fleetAuditor ["ec2"] ["owner"; "team"] (Ok ec2Report).
Proof.
  exists [[]], [DescribeInstances].
  assert (schedule [0; 0; 0] (AuditResources fleetAuditor ["ec2"] ["owner"; "team"])
          = Returned (Ok ec2Report) [[]] [DescribeInstances]) as <- by (by vm_compute).
  apply schedule_run.
Qed.

Lemma fleet_s3_returns : returns fleetAuditor ["s3"] ["owner"; "team"] (Ok s3Report).
Proof.
  exists [[]], [ListBuckets; GetBucketTagging "logs"; GetBucketTagging "assets"].
  assert (schedule [0; 0; 0; 0; 0] (AuditResources fleetAuditor ["s3"] ["owner"; "team"])
          = Returned (Ok s3Report) [[]]
                     [ListBuckets; GetBucketTagging "logs"; GetBucketTagging "assets"]) as <-
    by (by vm_compute).
  apply schedule_run.
Qed.

Lemma fleet_returns : returns fleetAuditor ["ec2"; "s3"] ["owner"; "team"] (Ok fleetReport).
Proof.
  exists [[]; []],
         [ListBuckets; DescribeInstances; GetBucketTagging "logs"; GetBucketTagging "assets"].
  assert (schedule [1; 0; 1; 1; 0; 0; 1; 1]
                   (AuditResources fleetAuditor ["ec2"; "s3"] ["owner"; "team"])
          = Returned (Ok fleetReport) [[]; []]
                     [ListBuckets; DescribeInstances; GetBucketTagging "logs";
                      GetBucketTagging "assets"]) as <- by (by vm_compute).
  apply schedule_run.
Qed.

Lemma report_interleaves_records_witness :
  interleave (records <$> (producer fleetAuditor ["owner"; "team"] <$> ["ec2"; "s3"]))
             (elems (Resources fleetReport))
  ∧ elems (Resources fleetReport)
    ≡ₚ concat (records <$> (producer fleetAuditor ["owner"; "team"] <$> ["ec2"; "s3"]))
  ∧ (∀ svc, svc ∈ ["ec2"; "s3"] →
            sublist (records (producer fleetAuditor ["owner"; "team"] svc))
                    (elems (Resources fleetReport))).
Proof.
  apply (report_interleaves_records fleetAuditor ["ec2"; "s3"] ["owner"; "team"] fleetReport).
  apply fleet_returns.
Defined.

(** When a single service is requested, a returned report lists the
    records in the order in which the provider sent them, which is the
    order of the listing. *)
Theorem single_service_report a svc requiredTags report :
  returns a [svc] requiredTags (Ok report) →
  elems (Resources report) = records (producer a requiredTags svc).
Proof. intros [Hl _]%returned_interleave. by apply interleave_single in Hl. Qed.

Lemma single_service_report_witness :
  elems (Resources exampleReport)
  = records (producer exampleAuditor ["environment"; "project"; "owner"] "ec2").
Proof.
  apply (single_service_report exampleAuditor "ec2" ["environment"; "project"; "owner"]).
  apply ec2_example_returns.
Defined.

(** Auditing two lists of services together gives the records of the two
    separate audits, up to order. *)
Theorem report_union a services1 services2 requiredTags report report1 report2 :
  returns a services1 requiredTags (Ok report1) →
  returns a services2 requiredTags (Ok report2) →
  returns a (services1 ++ services2) requiredTags (Ok report) →
  elems (Resources report) ≡ₚ elems (Resources report1) ++ elems (Resources report2).
Proof.
  intros [H1 _]%returned_interleave [H2 _]%returned_interleave [H _]%returned_interleave.
  apply interleave_Permutation in H1, H2, H.
  rewrite H, H1, H2. by rewrite !fmap_app, concat_app.
Qed.

Lemma report_union_witness :
  elems (Resources fleetReport) ≡ₚ elems (Resources ec2Report) ++ elems (Resources s3Report).
Proof.
  apply (report_union fleetAuditor ["ec2"] ["s3"] ["owner"; "team"]).
  - apply fleet_ec2_returns.
  - apply fleet_s3_returns.
  - apply fleet_returns.
Defined.

(** A returned report that holds no record has a [nil] slice, not an empty
    one, and [encoding/json] prints its [resources] as [null]; otherwise
    [resources] is an array with one object for each record. *)
Theorem empty_report_is_null a services requiredTags report :
  returns a services requiredTags (Ok report) →
  marshalReport report
  = JObject [("resources", match elems (Resources report) with
                           | [] => JNull
                           | l => JArray (marshalResource <$> l)
                           end)].
Proof.
  intros [_ Hrep]%returned_interleave. unfold marshalReport. rewrite Hrep.
  by destruct (elems (Resources report)).
Qed.

Lemma empty_report_is_null_witness :
  marshalReport {| Resources := SliceNil |} = JObject [("resources", JNull)].
Proof.
  apply (empty_report_is_null exampleAuditor ["rds"] ["owner"]).
  apply rds_example_returns.
Defined.

(** ** What each provider sends *)

Lemma omap_bind {A B C} (f : B → option C) (g : A → list B) (l : list A) :
  omap f (l ≫= g) = l ≫= (λ x, omap f (g x)).
Proof.
  induction l as [|x l IH]; [done|].
  change ((x :: l) ≫= g) with (g x ++ (l ≫= g)).
  change ((x :: l) ≫= (λ x, omap f (g x))) with (omap f (g x) ++ (l ≫= (λ x, omap f (g x)))).
  by rewrite omap_app, IH.
Qed.

Lemma bind_singleton_fmap {A B} (f : A → B) (l : list A) : l ≫= (λ x, [f x]) = f <$> l.
Proof.
  induction l as [|x l IH]; [done|].
  change ((x :: l) ≫= (λ x, [f x])) with ([f x] ++ (l ≫= (λ x, [f x]))). by rewrite IH.
Qed.

Lemma bind_nil {A B} (l : list A) : l ≫= (λ _, @nil B) = [].
Proof. by induction l. Qed.

(** The map built from a tag list holds, for each key, the value given
    last. *)
Lemma collectTags_lookup {T} (key value : T → string) (l : list T) (k : string) :
  collectTags key value l !! k = value <$> last (filter (λ t, key t = k) l).
Proof.
  unfold collectTags. induction l as [|t l IH] using rev_ind; [done|].
  rewrite fold_left_app, filter_app. simpl. rewrite filter_cons, filter_nil.
  case_decide as Hk.
  - subst k. by rewrite lookup_insert_eq, last_snoc.
  - by rewrite lookup_insert_ne, IH, app_nil_r.
Qed.

Lemma collectTags_None {T} (key value : T → string) (l : list T) (k : string) :
  collectTags key value l !! k = None ↔ k ∉ key <$> l.
Proof.
  rewrite collectTags_lookup, fmap_None, last_None. split.
  - intros Hnil (t & -> & Ht)%list_elem_of_fmap.
    assert (t ∈ filter (λ t', key t' = key t) l) as Hin by (by apply list_elem_of_filter).
    rewrite Hnil in Hin. by apply elem_of_nil in Hin.
  - intros Hk.
    destruct (filter (λ t, key t = k) l) as [|t l'] eqn:Hf; [done|].
    assert (t ∈ filter (λ t, key t = k) l) as [Hkey Hin]%list_elem_of_filter
      by (rewrite Hf; left).
    destruct Hk. apply list_elem_of_fmap. eauto.
Qed.

Lemma missingTags_collect {T} (key value : T → string) (l : list T) (requiredTags : list string) :
  missingTags (collectTags key value l) requiredTags
  = Slice (filter (λ t, t ∉ key <$> l) requiredTags).
Proof.
  rewrite missingTags_filter. f_equal. apply list_filter_iff.
  intros t. apply collectTags_None.
Qed.

Lemma records_app (p q : list action) : records (p ++ q) = records p ++ records q.
Proof. apply omap_app. Qed.

Lemma failures_app (p q : list action) : failures (p ++ q) = failures p ++ failures q.
Proof. apply omap_app. Qed.

Lemma requests_app (p q : list action) : requests (p ++ q) = requests p ++ requests q.
Proof. apply omap_app. Qed.

Lemma records_bind {A} (g : A → list action) (l : list A) :
  records (l ≫= g) = l ≫= (λ x, records (g x)).
Proof. apply omap_bind. Qed.

Lemma failures_bind {A} (g : A → list action) (l : list A) :
  failures (l ≫= g) = l ≫= (λ x, failures (g x)).
Proof. apply omap_bind. Qed.

Lemma requests_bind {A} (g : A → list action) (l : list A) :
  requests (l ≫= g) = l ≫= (λ x, requests (g x)).
Proof. apply omap_bind. Qed.

Lemma bind_ext {A B} (f g : A → list B) (l : list A) :
  (∀ x, f x = g x) → l ≫= f = l ≫= g.
Proof.
  intros Hfg. induction l as [|x l IH]; [done|].
  change ((x :: l) ≫= f) with (f x ++ (l ≫= f)).
  change ((x :: l) ≫= g) with (g x ++ (l ≫= g)). by rewrite Hfg, IH.
Qed.

Lemma records_bind_send {A} (f : A → ResourceInfo) (l : list A) :
  records (l ≫= λ x, [SendResource (f x)]) = f <$> l.
Proof. rewrite records_bind. apply (bind_singleton_fmap f). Qed.

(** When the instances can be listed, the EC2 provider makes that one
    request, sends no failure, and sends one record for each instance of
    each reservation, in the order of the listing.  The tag map of a record
    gives each key the value it has last in the tag list of the instance,
    and a required tag is missing exactly when no tag of the instance has
    that key. *)
Theorem ec2_records a requiredTags reservations :
  ec2Client a = Ok reservations →
  requests (auditEC2 a requiredTags) = [DescribeInstances]
  ∧ failures (auditEC2 a requiredTags) = []
  ∧ Forall2 (λ r instance,
       ServiceName r = "EC2"
       ∧ ResourceID r = ec2.InstanceId instance
       ∧ ResourceType r = "Instance"
       ∧ (∀ k, entries (Tags r) !! k
               = ec2.Value <$> last (filter (λ t, ec2.Key t = k) (ec2.Tags instance)))
       ∧ MissingTags r
         = Slice (filter (λ t, t ∉ ec2.Key <$> ec2.Tags instance) requiredTags))
     (records (auditEC2 a requiredTags))
     (reservations ≫= ec2.Instances).
Proof.
  intros Hlist. unfold auditEC2. rewrite Hlist.
  change (requests (Call ?c :: ?p)) with (c :: requests p).
  change (failures (Call ?c :: ?p)) with (failures p).
  change (records (Call ?c :: ?p)) with (records p).
  rewrite requests_bind, failures_bind, records_bind.
  split; [|split].
  - f_equal. rewrite <- (bind_nil (B := api) reservations). apply bind_ext.
    intros res. rewrite requests_bind. apply bind_nil.
  - rewrite <- (bind_nil (B := error) reservations). apply bind_ext.
    intros res. rewrite failures_bind. apply bind_nil.
  - clear Hlist. induction reservations as [|res l IH]; [constructor|].
    change (Forall2 ?P ((res :: l) ≫= ?f) ((res :: l) ≫= ?g))
      with (Forall2 P (f res ++ (l ≫= f)) (g res ++ (l ≫= g))).
    apply Forall2_app; [|done].
    rewrite records_bind_send.
    apply Forall2_fmap_l, Forall_Forall2_diag, Forall_forall. intros instance _. simpl.
    repeat split; [apply collectTags_lookup|apply missingTags_collect].
Qed.

Lemma ec2_records_witness :
  requests (auditEC2 exampleAuditor ["owner"]) = [DescribeInstances]
  ∧ failures (auditEC2 exampleAuditor ["owner"]) = []
  ∧ Forall2 (λ r instance,
       ServiceName r = "EC2"
       ∧ ResourceID r = ec2.InstanceId instance
       ∧ ResourceType r = "Instance"
       ∧ (∀ k, entries (Tags r) !! k
               = ec2.Value <$> last (filter (λ t, ec2.Key t = k) (ec2.Tags instance)))
       ∧ MissingTags r
         = Slice (filter (λ t, t ∉ ec2.Key <$> ec2.Tags instance) ["owner"]))
     (records (auditEC2 exampleAuditor ["owner"]))
     ([{| ec2.Instances := [exampleInstance] |}] ≫= ec2.Instances).
Proof. by apply (ec2_records exampleAuditor ["owner"]). Defined.

(** When the database instances can be listed, the RDS provider makes
    that one request, sends no failure, and sends one record for each
    instance, in the order of the listing, with the tags of its tag list
    (the last value of each key) and, as missing, the required tags that
    are no key of that list. *)
Theorem rds_records a requiredTags instances :
  rdsClient a = Ok instances →
  requests (auditRDS a requiredTags) = [DescribeDBInstances]
  ∧ failures (auditRDS a requiredTags) = []
  ∧ Forall2 (λ r instance,
       ServiceName r = "RDS"
       ∧ ResourceID r = rds.DBInstanceIdentifier instance
       ∧ ResourceType r = "DBInstance"
       ∧ (∀ k, entries (Tags r) !! k
               = rds.Value <$> last (filter (λ t, rds.Key t = k) (rds.TagList instance)))
       ∧ MissingTags r
         = Slice (filter (λ t, t ∉ rds.Key <$> rds.TagList instance) requiredTags))
     (records (auditRDS a requiredTags))
     instances.
Proof.
  intros Hlist. unfold auditRDS. rewrite Hlist.
  change (requests (Call ?c :: ?p)) with (c :: requests p).
  change (failures (Call ?c :: ?p)) with (failures p).
  change (records (Call ?c :: ?p)) with (records p).
  rewrite requests_bind, failures_bind, records_bind_send.
  split; [|split].
  - f_equal. apply bind_nil.
  - apply bind_nil.
  - apply Forall2_fmap_l, Forall_Forall2_diag, Forall_forall. intros instance _. simpl.
    repeat split; [apply collectTags_lookup|apply missingTags_collect].
Qed.

Lemma rds_records_witness :
  requests (auditRDS fleetAuditor ["owner"; "team"]) = [DescribeDBInstances]
  ∧ failures (auditRDS fleetAuditor ["owner"; "team"]) = []
  ∧ Forall2 (λ r instance,
       ServiceName r = "RDS"
       ∧ ResourceID r = rds.DBInstanceIdentifier instance
       ∧ ResourceType r = "DBInstance"
       ∧ (∀ k, entries (Tags r) !! k
               = rds.Value <$> last (filter (λ t, rds.Key t = k) (rds.TagList instance)))
       ∧ MissingTags r
         = Slice (filter (λ t, t ∉ rds.Key <$> rds.TagList instance) ["owner"; "team"]))
     (records (auditRDS fleetAuditor ["owner"; "team"]))
     [ordersDB].
Proof. by apply (rds_records fleetAuditor ["owner"; "team"]). Defined.

(** When the buckets can be listed, the S3 provider asks for the tags of
    each bucket in turn, never sends a failure, and sends one record for
    each bucket, in the order of the listing: with the tags of the answer
    when the tags could be read, and with no tag and every required tag
    missing when they could not. *)
Theorem s3_records a requiredTags buckets :
  (s3Client a).1 = Ok buckets →
  requests (auditS3 a requiredTags)
  = ListBuckets :: ((λ bucket, GetBucketTagging (s3.Name bucket)) <$> buckets)
  ∧ failures (auditS3 a requiredTags) = []
  ∧ Forall2 (λ r bucket,
       ServiceName r = "S3"
       ∧ ResourceID r = s3.Name bucket
       ∧ ResourceType r = "Bucket"
       ∧ match (s3Client a).2 (s3.Name bucket) with
         | Ok tagSet =>
             (∀ k, entries (Tags r) !! k
                   = s3.Value <$> last (filter (λ t, s3.Key t = k) tagSet))
             ∧ MissingTags r = Slice (filter (λ t, t ∉ s3.Key <$> tagSet) requiredTags)
         | Err _ => Tags r = Map ∅ ∧ MissingTags r = Slice requiredTags
         end)
     (records (auditS3 a requiredTags))
     buckets.
Proof.
  intros Hlist. unfold auditS3. rewrite Hlist.
  change (requests (Call ?c :: ?p)) with (c :: requests p).
  change (failures (Call ?c :: ?p)) with (failures p).
  change (records (Call ?c :: ?p)) with (records p).
  clear Hlist. split; [|split].
  - f_equal. induction buckets as [|bucket l IH]; [done|].
    rewrite fmap_cons, <- IH. done.
  - induction buckets as [|bucket l IH]; [done|]. exact IH.
  - induction buckets as [|bucket l IH]; [constructor|].
    apply (Forall2_cons_2 _ _ _ _ _); [|exact IH]. simpl.
    destruct ((s3Client a).2 (s3.Name bucket)) as [tagSet|err].
    + repeat split; [apply collectTags_lookup|apply missingTags_collect].
    + repeat split. apply missingTags_empty.
Qed.

Lemma s3_records_witness :
  requests (auditS3 exampleAuditor ["owner"])
  = ListBuckets :: ((λ bucket, GetBucketTagging (s3.Name bucket)) <$> [{| s3.Name := "logs" |}])
  ∧ failures (auditS3 exampleAuditor ["owner"]) = []
  ∧ Forall2 (λ r bucket,
       ServiceName r = "S3"
       ∧ ResourceID r = s3.Name bucket
       ∧ ResourceType r = "Bucket"
       ∧ match (s3Client exampleAuditor).2 (s3.Name bucket) with
         | Ok tagSet =>
             (∀ k, entries (Tags r) !! k
                   = s3.Value <$> last (filter (λ t, s3.Key t = k) tagSet))
             ∧ MissingTags r = Slice (filter (λ t, t ∉ s3.Key <$> tagSet) ["owner"])
         | Err _ => Tags r = Map ∅ ∧ MissingTags r = Slice ["owner"]
         end)
     (records (auditS3 exampleAuditor ["owner"]))
     [{| s3.Name := "logs" |}].
Proof. by apply (s3_records exampleAuditor ["owner"]). Defined.

(** When the functions can be listed, the Lambda provider asks for the
    tags of each function in turn; a function whose tags could be read
    gives a record with exactly these tags, a function whose tags could
    not be read gives a failure and no record, and the provider goes on to
    the next function either way. *)
Theorem lambda_records a requiredTags functions :
  (lambdaClient a).1 = Ok functions →
  requests (auditLambda a requiredTags)
  = ListFunctions :: ((λ function, ListTags (lambda.FunctionArn function)) <$> functions)
  ∧ records (auditLambda a requiredTags)
    = omap (λ function,
              match (lambdaClient a).2 (lambda.FunctionArn function) with
              | Ok tagsOutput =>
                  Some {| ServiceName := "Lambda";
                          ResourceID := lambda.FunctionName function;
                          ResourceType := "Function";
                          Tags := Map tagsOutput;
                          MissingTags :=
                            Slice (filter (λ t, tagsOutput !! t = None) requiredTags) |}
              | Err _ => None
              end) functions
  ∧ failures (auditLambda a requiredTags)
    = omap (λ function,
              match (lambdaClient a).2 (lambda.FunctionArn function) with
              | Ok _ => None
              | Err err => Some ("failed to get tags for Lambda function "
                                 +:+ lambda.FunctionName function +:+ ": " +:+ err)
              end) functions.
Proof.
  intros Hlist. unfold auditLambda. rewrite Hlist.
  change (requests (Call ?c :: ?p)) with (c :: requests p).
  change (failures (Call ?c :: ?p)) with (failures p).
  change (records (Call ?c :: ?p)) with (records p).
  clear Hlist. split; [|split].
  - f_equal. induction functions as [|function l IH]; [done|].
    rewrite fmap_cons, <- IH.
    change ((function :: l) ≫= ?g) with (g function ++ (l ≫= g)).
    rewrite requests_app. f_equal.
    by destruct ((lambdaClient a).2 _).
  - induction functions as [|function l IH]; [done|].
    change ((function :: l) ≫= ?g) with (g function ++ (l ≫= g)).
    rewrite records_app, IH.
    simpl. destruct ((lambdaClient a).2 _) as [tagsOutput|err]; [|done].
    simpl. by rewrite (copyTags_any_order tagsOutput), missingTags_filter.
  - induction functions as [|function l IH]; [done|].
    change ((function :: l) ≫= ?g) with (g function ++ (l ≫= g)).
    rewrite failures_app, IH.
    simpl. by destruct ((lambdaClient a).2 _).
Qed.

Lemma lambda_records_witness :
  requests (auditLambda exampleAuditor ["owner"])
  = ListFunctions :: ((λ function, ListTags (lambda.FunctionArn function)) <$> exampleFunctions)
  ∧ records (auditLambda exampleAuditor ["owner"])
    = omap (λ function,
              match (lambdaClient exampleAuditor).2 (lambda.FunctionArn function) with
              | Ok tagsOutput =>
                  Some {| ServiceName := "Lambda";
                          ResourceID := lambda.FunctionName function;
                          ResourceType := "Function";
                          Tags := Map tagsOutput;
                          MissingTags :=
                            Slice (filter (λ t, tagsOutput !! t = None) ["owner"]) |}
              | Err _ => None
              end) exampleFunctions
  ∧ failures (auditLambda exampleAuditor ["owner"])
    = omap (λ function,
              match (lambdaClient exampleAuditor).2 (lambda.FunctionArn function) with
              | Ok _ => None
              | Err err => Some ("failed to get tags for Lambda function "
                                 +:+ lambda.FunctionName function +:+ ": " +:+ err)
              end) exampleFunctions.
Proof. by apply (lambda_records exampleAuditor ["owner"]). Defined.

(** The two ends of the missing-tags list of a record a provider sends:
    it is empty when nothing is required and when every required tag is a
    key of the record; it is the whole required list, as given, when the
    record has no tag; and it is never longer than the required list. *)
Theorem missing_tags_extremes a requiredTags svc r :
  SendResource r ∈ producer a requiredTags svc →
  (requiredTags = [] → MissingTags r = Slice [])
  ∧ ((∀ t, t ∈ requiredTags → is_Some (entries (Tags r) !! t)) → MissingTags r = Slice [])
  ∧ (entries (Tags r) = ∅ → MissingTags r = Slice requiredTags)
  ∧ length (elems (MissingTags r)) ≤ length requiredTags.
Proof.
  intros (tags & Htags & Hmissing)%producer_sends.
  rewrite Hmissing, Htags. simpl. split; [|split; [|split]].
  - by intros ->.
  - intros Hall. rewrite missingTags_filter. f_equal. clear Hmissing.
    induction requiredTags as [|t l IH]; [done|].
    rewrite filter_cons, decide_False.
    + apply IH. intros t' Ht'. apply Hall. by right.
    + destruct (Hall t) as [v Hv]; [by left|]. by rewrite Hv.
  - intros ->. apply missingTags_empty.
  - rewrite missingTags_filter. simpl. apply length_filter.
Qed.

Lemma missing_tags_extremes_witness :
  MissingTags webRecordFree = Slice []
  ∧ MissingTags ordersRecord = Slice []
  ∧ MissingTags batchRecord = Slice ["owner"; "team"]
  ∧ length (elems (MissingTags webRecord)) ≤ length ["owner"; "team"].
Proof.
  assert (SendResource webRecordFree ∈ producer fleetAuditor [] "ec2") as Hfree
    by (apply list_elem_of_In; vm_compute; tauto).
  assert (SendResource ordersRecord ∈ producer fleetAuditor ["owner"; "team"] "rds") as Horders
    by (apply list_elem_of_In; vm_compute; tauto).
  assert (SendResource batchRecord ∈ producer fleetAuditor ["owner"; "team"] "ec2") as Hbatch
    by (apply list_elem_of_In; vm_compute; tauto).
  assert (SendResource webRecord ∈ producer fleetAuditor ["owner"; "team"] "ec2") as Hweb
    by (apply list_elem_of_In; vm_compute; tauto).
  destruct (missing_tags_extremes fleetAuditor [] "ec2" webRecordFree Hfree) as (Hnone & _).
  destruct (missing_tags_extremes fleetAuditor ["owner"; "team"] "rds" ordersRecord Horders)
    as (_ & Hall & _).
  destruct (missing_tags_extremes fleetAuditor ["owner"; "team"] "ec2" batchRecord Hbatch)
    as (_ & _ & Hbare & _).
  destruct (missing_tags_extremes fleetAuditor ["owner"; "team"] "ec2" webRecord Hweb)
    as (_ & _ & _ & Hlen).
  split; [by apply Hnone|]. split; [|split; [by apply Hbare|exact Hlen]].
  apply Hall. intros t Ht. rewrite !elem_of_cons in Ht.
  destruct Ht as [->|[->|Ht]]; [| |by apply elem_of_nil in Ht];
    apply (bool_decide_unpack _); by vm_compute.
Defined.

(** ** Producers at the return, again *)

Lemma failures_take (ps : list (list action)) i x rest :
  ps !! i = Some (x :: rest) →
  failures (concat ps) ≡ₚ failures [x] ++ failures (concat (<[i := rest]> ps)).
Proof.
  intros Hi. rewrite <- failures_app. unfold failures.
  by rewrite (concat_take ps i x rest Hi).
Qed.

Lemma failures_elem_of (p : list action) e : e ∈ failures p ↔ SendError e ∈ p.
Proof.
  unfold failures. rewrite list_elem_of_omap. split.
  - intros ([| |e'] & Hin & Heq); simplify_eq. done.
  - intros Hin. by exists (SendError e).
Qed.

(** When the launched providers have two failures or more to send between
    them, every run of [AuditResources] returns one of them and leaves a
    producer blocked on its send. *)
Theorem two_failures_leave_blocked_producer a services requiredTags res ps calls :
  2 ≤ length (failures (concat (producer a requiredTags <$> services))) →
  rtc step (AuditResources a services requiredTags) (Returned res ps calls) →
  (∃ e, res = Err e) ∧ leaked ps ≠ [].
Proof.
  unfold AuditResources. generalize (producer a requiredTags <$> services). intros ps0.
  generalize {| Resources := SliceNil |} (@nil api). intros report calls0 Hlen Hrun.
  remember (Collecting ps0 report calls0) as s eqn:Hs.
  remember (Returned res ps calls) as s' eqn:Hs'.
  revert ps0 report calls0 Hlen Hs.
  induction Hrun as [s|s s1 s' H1 Hrun IH]; intros ps0 report calls0 Hlen ->; [by subst|].
  specialize (IH Hs').
  inversion H1 as [? ? ? i c rest Hi|? ? ? i r rest Hi|? ? ? i err rest Hi|? ? ? Hall]; subst.
  - eapply IH; [|done]. by rewrite (failures_take _ _ _ _ Hi) in Hlen.
  - eapply IH; [|done]. by rewrite (failures_take _ _ _ _ Hi) in Hlen.
  - apply rtc_nf in Hrun; [|apply Returned_nf]. simplify_eq.
    split; [by eauto|].
    rewrite (failures_take _ _ _ _ Hi) in Hlen. simpl in Hlen.
    destruct (failures (concat (<[i := rest]> ps0))) as [|e l] eqn:Hf; [simpl in Hlen; lia|].
    assert (e ∈ failures (concat (<[i := rest]> ps0))) as He by (rewrite Hf; left).
    apply failures_elem_of, elem_of_concat in He as (p & Hp & He).
    intros Hnone.
    assert (p ∈ leaked (<[i := rest]> ps0)) as Hin.
    { apply list_elem_of_filter. split; [|done].
      apply existsb_exists. exists (SendError e). split; [|done].
      by apply list_elem_of_In. }
    rewrite Hnone in Hin. by apply elem_of_nil in Hin.
  - apply concat_nil_Forall in Hall. rewrite Hall in Hlen. simpl in Hlen. lia.
Qed.

Lemma two_failures_leave_blocked_producer_witness :
  (∃ e, Err (T := AuditReport) "failed to get tags for Lambda function resize: AccessDenied" = Err e)
  ∧ leaked [stuckProducer] ≠ [].
Proof.
  apply (two_failures_leave_blocked_producer exampleAuditor ["lambda"] ["owner"] _ _
           [ListFunctions; ListTags "arn:aws:lambda:eu-west-1:1:function:resize"]).
  - vm_compute. lia.
  - exact (runSingle_run (auditLambda exampleAuditor ["owner"]) {| Resources := SliceNil |} []).
Defined.

(** ** The text presenter *)

Lemma Write_sound text p :
  Write {| written := text; broken := None |} p
  = ({| written := text +:+ p; broken := None |}, None).
Proof. done. Qed.

Lemma textBlock_sound text resource :
  textBlock {| written := text; broken := None |} resource
  = {| written := text +:+ textBlockText resource; broken := None |}.
Proof.
  unfold textBlock, textBlockText, Fprintf, Fprintln. cbv zeta.
  repeat (rewrite Write_sound; cbn [fst]).
  destruct (elems (MissingTags resource)) as [|t l] eqn:Hmissing; simpl length; cbn [Nat.ltb Nat.leb];
    repeat (rewrite Write_sound; cbn [fst]); f_equal.
  - change (EmptyString +:+ ?s) with s. by rewrite !string_app_assoc.
  - by rewrite !string_app_assoc.
Qed.

Lemma textBlocks_sound text resources :
  fold_left textBlock resources {| written := text; broken := None |}
  = {| written := text +:+ foldr String.append EmptyString (textBlockText <$> resources);
       broken := None |}.
Proof.
  revert text. induction resources as [|resource l IH]; intros text; simpl.
  - by rewrite string_app_nil_r.
  - by rewrite textBlock_sound, IH, string_app_assoc.
Qed.

(** On a stream that takes everything, the text presenter writes the two
    title lines and then one block for each resource, in the order of the
    report; the block of a resource has a [Missing Tags] line exactly when
    the resource has a missing tag. *)
Theorem OutputText_sound r text :
  OutputText r {| written := text; broken := None |}
  = ({| written := text +:+ textReport r; broken := None |}, None).
Proof.
  unfold OutputText, textReport, Fprintln. cbv zeta.
  repeat (rewrite Write_sound; cbn [fst]).
  rewrite textBlocks_sound. by rewrite !string_app_assoc.
Qed.

(** ** Exit status *)

(** When a provider has a failure to send, [runAudit] prints nothing,
    whatever the format asked for, and returns the failure of a provider
    behind the prefix [failed to audit resources]. *)
Theorem failed_audit_prints_nothing {W} `{!Writer W} (jsonEncode : json → string)
    a services requiredTags outputFormat (stdout : W) out calls e :
  SendError e ∈ concat (producer a requiredTags <$> services) →
  runAudit jsonEncode a services requiredTags outputFormat stdout out calls →
  out.1 = stdout
  ∧ ∃ e', out.2 = Some ("failed to audit resources: " +:+ e')
          ∧ SendError e' ∈ concat (producer a requiredTags <$> services).
Proof.
  intros He (res & ps & Hrun & Hout).
  destruct (audit_fails _ _ _ _ He) as [_ Hall].
  destruct (Hall res) as (e' & -> & He'); [by exists ps, calls|].
  rewrite Hout. eauto.
Qed.

Lemma failed_audit_prints_nothing_witness :
  (terminal, Some ("failed to audit resources: "
                   +:+ "failed to get tags for Lambda function resize: AccessDenied")).1
  = terminal
  ∧ ∃ e', (terminal, Some ("failed to audit resources: "
                           +:+ "failed to get tags for Lambda function resize: AccessDenied")).2
          = Some ("failed to audit resources: " +:+ e')
          ∧ SendError e' ∈ concat (producer exampleAuditor ["owner"] <$> ["lambda"]).
Proof.
  apply (failed_audit_prints_nothing jsonExample exampleAuditor ["lambda"] ["owner"] "json"
           terminal _ [ListFunctions; ListTags "arn:aws:lambda:eu-west-1:1:function:resize"]
           "failed to get tags for Lambda function notify: AccessDenied").
  - apply list_elem_of_In. vm_compute. tauto.
  - exists (Err "failed to get tags for Lambda function resize: AccessDenied"), [stuckProducer].
    split; [|done].
    exact (runSingle_run (auditLambda exampleAuditor ["owner"]) {| Resources := SliceNil |} []).
Defined.

(** What [sigpipe] is once something has been written to [f]. *)
Lemma Write_fd (f : fd) p :
  state (Write f p).1 = state f
  ∧ sigpipe (Write f p).1 = match state f with ClosedPipe => true | _ => sigpipe f end.
Proof. unfold Write, fd_Writer. destruct f as [text st sig]. by destruct st. Qed.

Lemma Write_fd_written (f0 f : fd) p :
  state f = state f0 →
  sigpipe f = match state f0 with ClosedPipe => true | _ => sigpipe f0 end →
  state (Write f p).1 = state f0
  ∧ sigpipe (Write f p).1 = match state f0 with ClosedPipe => true | _ => sigpipe f0 end.
Proof.
  intros Hstate Hsig. destruct (Write_fd f p) as [-> ->]. rewrite Hstate.
  split; [done|]. by destruct (state f0).
Qed.

Lemma textBlock_fd_written (f0 f : fd) resource :
  state f = state f0 →
  sigpipe f = match state f0 with ClosedPipe => true | _ => sigpipe f0 end →
  state (textBlock f resource) = state f0
  ∧ sigpipe (textBlock f resource) = match state f0 with ClosedPipe => true | _ => sigpipe f0 end.
Proof.
  intros Hstate Hsig. unfold textBlock, Fprintf, Fprintln. cbv zeta.
  destruct (0 <? _)%nat; repeat (apply Write_fd_written); done.
Qed.

(** The text presenter writes at least once. *)
Lemma OutputText_fd (f : fd) r :
  sigpipe (OutputText r f).1 = match state f with ClosedPipe => true | _ => sigpipe f end.
Proof.
  unfold OutputText, Fprintln. cbv zeta. cbn [fst].
  destruct (Write_fd f ("AWS Resource Tag Audit Report" +:+ nl)) as [Hstate Hsig].
  destruct (Write_fd_written f _ ("==========================" +:+ nl) Hstate Hsig)
    as [Hstate2 Hsig2].
  revert Hstate2 Hsig2. generalize (Write (Write f ("AWS Resource Tag Audit Report" +:+ nl)).1
                                          ("==========================" +:+ nl)).1.
  induction (elems (Resources r)) as [|resource l IH]; intros f' Hstate' Hsig'; [done|].
  simpl. by destruct (textBlock_fd_written f f' resource Hstate' Hsig') as [? ?]; apply IH.
Qed.

(** With the text format and the SDK configuration loaded, the exit status
    tells only whether the audit succeeded: 1, with nothing printed, when
    a provider failed, and 0 when a report was returned, also when the
    writes to standard output fail with an error.  The one exception is a
    standard output that is a closed pipe: the first write kills the
    process. *)
Theorem text_exit_status (jsonEncode : json → string)
    a args requiredTags (stdout : fd) ends stdout' calls :
  required_tags args = Some requiredTags →
  default "text" (output args) = "text" →
  sigpipe stdout = false →
  main jsonEncode (Ok a) args stdout ends stdout' calls →
  (∃ report, returns a (default ["ec2"; "s3"; "rds"; "lambda"] (services args))
                     requiredTags (Ok report)
             ∧ stdout' = (OutputText report stdout).1
             ∧ ends = match state stdout with ClosedPipe => Killed | _ => Exited 0 end)
  ∨ (ends = Exited 1 ∧ stdout' = stdout
     ∧ ∃ e, returns a (default ["ec2"; "s3"; "rds"; "lambda"] (services args))
                    requiredTags (Err e)).
Proof.
  intros Htags Hformat Hsig. unfold main. rewrite Htags, Hformat.
  intros (code & (err & (res & ps & Hrun & Hout) & ->) & ->).
  destruct res as [report|e].
  - left. rewrite !decide_False, decide_True in Hout by done.
    assert (stdout' = (OutputText report stdout).1) as -> by (by rewrite <- Hout).
    assert (err = None) as -> by (unfold OutputText in Hout; by injection Hout).
    exists report. split; [by exists ps, calls|]. split; [done|].
    rewrite OutputText_fd, Hsig. by destruct (state stdout).
  - right. injection Hout as -> ->. rewrite Hsig. split; [done|]. split; [done|].
    exists e. by exists ps, calls.
Qed.

Lemma text_exit_status_witness :
  (∃ report, returns exampleAuditor (default ["ec2"; "s3"; "rds"; "lambda"] (services textFlags))
                     ["owner"] (Ok report)
             ∧ fullDisk = (OutputText report fullDisk).1
             ∧ Exited 0 = match state fullDisk with ClosedPipe => Killed | _ => Exited 0 end)
  ∨ (Exited 0 = Exited 1 ∧ fullDisk = fullDisk
     ∧ ∃ e, returns exampleAuditor (default ["ec2"; "s3"; "rds"; "lambda"] (services textFlags))
                    ["owner"] (Err e)).
Proof.
  apply (text_exit_status jsonExample exampleAuditor textFlags ["owner"] fullDisk (Exited 0)
           fullDisk [DescribeInstances]); [done|done|done|].
  exists 0. split; [|done]. exists None. split; [|done].
  eexists _, _. split; [apply ec2_example_run|].
  simpl. symmetry.
  by apply (OutputText_failing _ "write /dev/stdout: no space left on device").
Defined.

(** With the JSON format and the SDK configuration loaded: when the writes
    to standard output fail with an error, the process exits with status 1
    and has printed nothing, whether the audit succeeded or not; when
    standard output is a closed pipe, the process is killed if the audit
    succeeded and exits with status 1 if it failed. *)
Theorem json_write_failure_exit (jsonEncode : json → string)
    a args requiredTags (stdout : fd) ends stdout' calls :
  required_tags args = Some requiredTags →
  output args = Some "json" →
  sigpipe stdout = false →
  main jsonEncode (Ok a) args stdout ends stdout' calls →
  (∀ e, state stdout = Failing e → ends = Exited 1 ∧ stdout' = stdout)
  ∧ (state stdout = ClosedPipe →
     (ends = Killed
      ∧ ∃ report, returns a (default ["ec2"; "s3"; "rds"; "lambda"] (services args))
                          requiredTags (Ok report))
     ∨ (ends = Exited 1
        ∧ ∃ e, returns a (default ["ec2"; "s3"; "rds"; "lambda"] (services args))
                       requiredTags (Err e))).
Proof.
  intros Htags Hformat Hsig. unfold main. rewrite Htags, Hformat. simpl.
  intros (code & (err & (res & ps & Hrun & Hout) & ->) & ->).
  destruct res as [report|e'].
  - rewrite decide_True in Hout by done. unfold OutputJSON in Hout. split.
    + intros e He. rewrite (Write_failing _ e) in Hout by done.
      injection Hout as -> ->. by rewrite Hsig.
    + intros Hclosed. left.
      destruct (Write_fd stdout (jsonEncode (marshalReport report))) as [_ Hsig'].
      rewrite <- Hout, Hclosed in Hsig'. simpl in Hsig'. rewrite Hsig'.
      split; [done|]. exists report. by exists ps, calls.
  - injection Hout as -> ->. rewrite Hsig. split; [done|].
    intros _. right. split; [done|]. exists e'. by exists ps, calls.
Qed.

Lemma json_write_failure_exit_witness :
  (∀ e, state fullDisk = Failing e → Exited 1 = Exited 1 ∧ fullDisk = fullDisk)
  ∧ (state fullDisk = ClosedPipe →
     (Exited 1 = Killed
      ∧ ∃ report, returns exampleAuditor (default ["ec2"; "s3"; "rds"; "lambda"] (services jsonFlags))
                          ["owner"] (Ok report))
     ∨ (Exited 1 = Exited 1
        ∧ ∃ e, returns exampleAuditor (default ["ec2"; "s3"; "rds"; "lambda"] (services jsonFlags))
                       ["owner"] (Err e))).
Proof.
  apply (json_write_failure_exit jsonExample exampleAuditor jsonFlags ["owner"] fullDisk
           (Exited 1) fullDisk [DescribeInstances]); [done|done|done|].
  exists 1. split; [|done]. exists (Some "write /dev/stdout: no space left on device").
  split; [|done]. eexists _, _. split; [apply ec2_example_run|]. done.
Defined.

(** ** The CSV presenter on a stream that fails *)

Lemma string_length_app (s1 s2 : string) :
  String.length (s1 +:+ s2) = String.length s1 + String.length s2.
Proof. induction s1 as [|c s1 IH]; [done|]. exact (f_equal S IH). Qed.

Lemma bufio_Flush_broken_wr (w : stream) e (b : @bufio_Writer stream) :
  broken w = Some e → wr b = w → wr (bufio_Flush b).1 = w.
Proof.
  intros Hw Hb. unfold bufio_Flush. destruct (werr b); [done|].
  case_decide; [done|]. rewrite Hb, (Write_broken w e) by done. done.
Qed.

(** Behind a stream that fails, a write is buffered while the buffer has
    room, and the first write that does not fit returns the failure. *)
Lemma bufio_WriteString_broken (w : stream) e text s :
  broken w = Some e →
  String.length text ≤ bufio_size →
  if (String.length text + String.length s <=? bufio_size)%nat
  then bufio_WriteString {| wr := w; buf := text; werr := None |} s
       = ({| wr := w; buf := text +:+ s; werr := None |}, None)
  else ∃ b', bufio_WriteString {| wr := w; buf := text; werr := None |} s = (b', Some e)
             ∧ wr b' = w.
Proof.
  intros Hw Htext. unfold bufio_WriteString, bufio_Available. simpl.
  destruct (String.length text + String.length s <=? bufio_size)%nat eqn:Hfits.
  - apply Nat.leb_le in Hfits.
    destruct (String.length s <=? bufio_size - String.length text)%nat eqn:Hroom; [done|].
    apply Nat.leb_gt in Hroom. lia.
  - apply Nat.leb_gt in Hfits.
    destruct (String.length s <=? bufio_size - String.length text)%nat eqn:Hroom.
    { apply Nat.leb_le in Hroom. lia. }
    case_decide as Hempty.
    + unfold bufio_direct. simpl. rewrite (Write_broken w e) by done. by eexists.
    + unfold bufio_Flush. simpl. case_decide as Hfilled.
      { destruct text; [done|]. discriminate Hfilled. }
      rewrite (Write_broken w e) by done. by eexists.
Qed.

Lemma bufio_writeAll_broken (w : stream) e text chunks :
  broken w = Some e →
  String.length text ≤ bufio_size →
  if (String.length text + String.length (foldr String.append EmptyString chunks)
      <=? bufio_size)%nat
  then bufio_writeAll {| wr := w; buf := text; werr := None |} chunks
       = ({| wr := w; buf := text +:+ foldr String.append EmptyString chunks; werr := None |},
          None)
  else ∃ b', bufio_writeAll {| wr := w; buf := text; werr := None |} chunks = (b', Some e)
             ∧ wr b' = w.
Proof.
  intros Hw. revert text. induction chunks as [|s chunks IH]; intros text Htext; simpl.
  - rewrite Nat.add_0_r. destruct (_ <=? _)%nat eqn:Hfits; [by rewrite string_app_nil_r|].
    apply Nat.leb_gt in Hfits. lia.
  - rewrite string_length_app.
    pose proof (bufio_WriteString_broken w e text s Hw Htext) as Hs.
    destruct (String.length text + String.length s <=? bufio_size)%nat eqn:Hfits.
    + apply Nat.leb_le in Hfits. rewrite Hs.
      assert (String.length (text +:+ s) ≤ bufio_size) as Htext'
        by (rewrite string_length_app; lia).
      specialize (IH (text +:+ s) Htext'). rewrite string_length_app in IH.
      rewrite Nat.add_assoc. destruct (_ <=? _)%nat.
      * by rewrite IH, string_app_assoc.
      * done.
    + apply Nat.leb_gt in Hfits. destruct Hs as (b' & -> & Hb').
      destruct (_ <=? _)%nat eqn:Hall; [|by eauto].
      apply Nat.leb_le in Hall. lia.
Qed.

Lemma writeRows_broken (w : stream) e visits resources text :
  broken w = Some e →
  String.length text ≤ bufio_size →
  if (String.length text
      + String.length (foldr String.append EmptyString (csvLine <$> csvRows visits resources))
      <=? bufio_size)%nat
  then writeRows visits resources {| wr := w; buf := text; werr := None |}
       = ({| wr := w;
             buf := text +:+ foldr String.append EmptyString (csvLine <$> csvRows visits resources);
             werr := None |}, None)
  else ∃ b', writeRows visits resources {| wr := w; buf := text; werr := None |}
             = (b', Some ("error writing CSV row: " +:+ e))
             ∧ wr b' = w.
Proof.
  intros Hw. revert visits text.
  induction resources as [|resource resources IH]; intros visits text Htext; simpl.
  - rewrite Nat.add_0_r. destruct (_ <=? _)%nat eqn:Hfits; [by rewrite string_app_nil_r|].
    apply Nat.leb_gt in Hfits. lia.
  - rewrite string_length_app. unfold csv_Write.
    set (row := csvRow resource (default (map_to_list (entries (Tags resource))) (head visits))).
    pose proof (bufio_writeAll_broken w e text (recordChunks row) Hw Htext) as Hrow.
    fold (csvLine row) in Hrow.
    destruct (String.length text + String.length (csvLine row) <=? bufio_size)%nat eqn:Hfits.
    + apply Nat.leb_le in Hfits. rewrite Hrow.
      assert (String.length (text +:+ csvLine row) ≤ bufio_size) as Htext'
        by (rewrite string_length_app; lia).
      specialize (IH (tail visits) (text +:+ csvLine row) Htext').
      rewrite string_length_app in IH.
      rewrite Nat.add_assoc. destruct (_ <=? _)%nat.
      * by rewrite IH, string_app_assoc.
      * done.
    + apply Nat.leb_gt in Hfits. destruct Hrow as (b' & -> & Hb').
      destruct (_ <=? _)%nat eqn:Hall; [|by eauto].
      apply Nat.leb_le in Hall. lia.
Qed.

(** Behind a stream that fails every write, the CSV presenter reports the
    failure only when the whole text is longer than the 4096 bytes of the
    buffer, as a failure to write a row; a shorter text is lost without an
    error, the failure of the deferred [Flush] being dropped. *)
Theorem OutputCSV_broken visits r (w : stream) e :
  broken w = Some e →
  OutputCSV visits r w
  = (w, if (String.length (csvText visits r) <=? bufio_size)%nat
        then None
        else Some ("error writing CSV row: " +:+ e)).
Proof.
  intros Hw. unfold OutputCSV, csv_Write, csv_NewWriter, csvText.
  rewrite fmap_cons. simpl foldr. rewrite string_length_app.
  pose proof (bufio_writeAll_broken w e EmptyString (recordChunks header) Hw ltac:(simpl; lia))
    as Hheader.
  fold (csvLine header) in Hheader.
  assert (String.length (csvLine header) = 52) as Hlen by (by vm_compute).
  rewrite Hlen in *. change (String.length EmptyString + 52 <=? bufio_size)%nat with true in Hheader.
  rewrite Hheader. change (EmptyString +:+ ?s) with s.
  pose proof (writeRows_broken w e visits (elems (Resources r)) (csvLine header) Hw
                ltac:(rewrite Hlen; unfold bufio_size; lia)) as Hrows.
  rewrite Hlen in Hrows.
  destruct (_ <=? _)%nat.
  - rewrite Hrows. f_equal. by apply (bufio_Flush_broken_wr w e).
  - destruct Hrows as (b' & -> & Hb'). f_equal. by apply (bufio_Flush_broken_wr w e).
Qed.

Lemma OutputCSV_broken_witness :
  OutputCSV [nameFirst] exampleReport closedPipe
  = (closedPipe, if (String.length (csvText [nameFirst] exampleReport) <=? bufio_size)%nat
                 then None
                 else Some ("error writing CSV row: " +:+ "broken pipe")).
Proof. by apply (OutputCSV_broken [nameFirst] exampleReport closedPipe "broken pipe"). Defined.

(** ** Requests made by a successful audit *)

Lemma requests_received (calls : list api) (l : list ResourceInfo) :
  requests ((Call <$> calls) ++ (SendResource <$> l)) = calls.
Proof.
  rewrite requests_app.
  assert (requests (SendResource <$> l) = []) as -> by (by induction l).
  rewrite app_nil_r. induction calls as [|c calls IH]; [done|].
  rewrite fmap_cons. change (requests (Call c :: ?p)) with (c :: requests p). by rewrite IH.
Qed.

(** When a report is returned, every launched provider has made all its
    requests, each once: the requests that reached the cloud are those of
    the providers, in some interleaving. *)
Theorem report_requests a services requiredTags report ps calls :
  rtc step (AuditResources a services requiredTags) (Returned (Ok report) ps calls) →
  calls ≡ₚ concat (requests <$> (producer a requiredTags <$> services)).
Proof.
  intros [_ Hp]%run_report.
  rewrite <- (requests_received calls (elems (Resources report))).
  unfold requests at 1. rewrite Hp. clear Hp.
  induction (producer a requiredTags <$> services) as [|p l IH]; [done|].
  rewrite fmap_cons, !concat_cons, omap_app. by rewrite IH.
Qed.

Lemma report_requests_witness :
  [DescribeInstances; DescribeDBInstances]
  ≡ₚ concat (requests <$> (producer exampleAuditor ["environment"; "project"; "owner"]
                             <$> ["ec2"; "rds"])).
Proof.
  exact (report_requests exampleAuditor ["ec2"; "rds"] ["environment"; "project"; "owner"]
           exampleReport [[]; []] [DescribeInstances; DescribeDBInstances]
           (ec2_rds_example_run ["environment"; "project"; "owner"])).
Defined.
